(** * csv-to-array: the tokenizer, the delimiter detector and the record
      projection of [src/index.ts], embedded and verified.

    A JavaScript string is a sequence of UTF-16 code units; [text[i]] is the
    one-unit string at index [i].  Strings are therefore lists of code units
    ([N]), and the comparison of a one-unit string with a string [d] is the
    comparison of lists [d = [ch]].  A record ([CsvRow]) is a JavaScript
    object: its own properties are a finite map from strings to values. *)

From Stdlib Require Import String Ascii NArith QArith.
From Stdlib Require DecimalString DecimalNat DecimalFacts.
From stdpp Require Import base decidable option list gmap fin_maps.

(** ** Strings *)

Abbreviation char := N.
Abbreviation jsstring := (list N).

(** A string literal of the source, written with Rocq's string notation. *)
Definition js (s : string) : jsstring :=
  List.map N_of_ascii (list_ascii_of_string s).

Definition LF : char := 10%N.
Definition CR : char := 13%N.
Definition QUOTE : char := 34%N.
Definition BOM : char := 65279%N.

Definition chr_eqb (a b : char) : bool := N.eqb a b.
Definition str_eqb (a b : jsstring) : bool := bool_decide (a = b).
Definition is_empty {A} (s : list A) : bool :=
  match s with [] => true | _ => false end.

(** The code units [String.prototype.trim] strips: ECMAScript's WhiteSpace
    and LineTerminator productions. *)
Definition isWhite (c : char) : bool :=
  ((9 <=? c) && (c <=? 13))%N
  || (c =? 32)%N || (c =? 160)%N || (c =? 5760)%N
  || ((8192 <=? c) && (c <=? 8202))%N
  || (c =? 8232)%N || (c =? 8233)%N || (c =? 8239)%N
  || (c =? 8287)%N || (c =? 12288)%N || (c =? 65279)%N.

Fixpoint dropWhile {A} (p : A -> bool) (l : list A) : list A :=
  match l with
  | [] => []
  | x :: l' => if p x then dropWhile p l' else l
  end.

Definition trimStart (s : jsstring) : jsstring := dropWhile isWhite s.
Definition trimEnd (s : jsstring) : jsstring :=
  rev (dropWhile isWhite (rev s)).
Definition trim (s : jsstring) : jsstring := trimEnd (trimStart s).
Global Arguments trim : simpl never.

(** ** The row tokenizer: [parseRows] *)

Module Tokenizer.

Section ParseRows.
(** [delimiter], [opts.comment] and [opts.skipEmptyLines]. *)
Variable d : jsstring.
Variable comment : option jsstring.
Variable skipEmptyLines : bool.

(** The mutable locals of [parseRows]. *)
Record state := State {
  field : jsstring;
  row : list jsstring;
  inQuotes : bool;
  lines : list (list jsstring)
}.

Definition init : state :=
  {| field := []; row := []; inQuotes := false; lines := [] |}.

(** [field += ch] *)
Definition addChar (ch : char) (st : state) : state :=
  {| field := field st ++ [ch]; row := row st;
     inQuotes := inQuotes st; lines := lines st |}.

(** [inQuotes = !inQuotes] *)
Definition toggle (st : state) : state :=
  {| field := field st; row := row st;
     inQuotes := negb (inQuotes st); lines := lines st |}.

(** [row.push(field)]; [field] is reset to the empty string. *)
Definition pushField (st : state) : state :=
  {| field := []; row := row st ++ [field st];
     inQuotes := inQuotes st; lines := lines st |}.

(** The test of [pushRow]: [opts.skipEmptyLines && row.length === 1] and
    [row[0].trim()] is the empty string. *)
Definition blankRow (r : list jsstring) : bool :=
  skipEmptyLines
  && match r with [f] => is_empty (trim f) | _ => false end.

(** [if (!(...)) lines.push(row); row = []] *)
Definition pushRow (st : state) : state :=
  {| field := field st; row := [];
     inQuotes := inQuotes st;
     lines := if blankRow (row st) then lines st
              else lines st ++ [row st] |}.

(** [comment && ch === comment]: an absent or empty prefix is falsy, and
    a one-unit string equals the prefix only when the prefix is that one
    unit. *)
Definition isComment (ch : char) : bool :=
  match comment with
  | Some c => negb (is_empty c) && str_eqb c [ch]
  | None => false
  end.

(** [!inQuotes], [field] is the empty string, [row.length === 0],
    [comment && ch === comment]. *)
Definition commentStart (st : state) (ch : char) : bool :=
  negb (inQuotes st) && is_empty (field st)
  && is_empty (row st)
  && isComment ch.

(** [while (i < len && text[i] !== "\n") i++; continue;] followed by the
    [i++] of the [for]: the scan stops on the first line feed at or after
    the current index and the loop resumes behind it, or at the end of
    the text.  [k] is the rest of the [for] loop, [e] its result when the
    text is exhausted. *)
Definition skipLine {A} (k : jsstring -> A) (e : A) : jsstring -> A :=
  fix skip (r : jsstring) : A :=
    match r with
    | [] => e
    | c :: r' => if chr_eqb c LF then k r' else skip r'
    end.

(** The [for] loop over the text; the list is the text from index [i] on,
    its head [text[i]] and the head of its tail [next]. *)
Fixpoint loop (text : jsstring) (st : state) {struct text} : state :=
  match text with
  | [] => st
  | ch :: rest =>
    if commentStart st ch then
      if chr_eqb ch LF then loop rest st
      else skipLine (fun r => loop r st) st rest
    else if chr_eqb ch QUOTE then
      match rest with
      | next :: rest' =>
        if inQuotes st && chr_eqb next QUOTE
        then loop rest' (addChar QUOTE st)
        else loop rest (toggle st)
      | [] => loop rest (toggle st)
      end
    else if negb (inQuotes st) && str_eqb d [ch] then
      loop rest (pushField st)
    else if negb (inQuotes st) && (chr_eqb ch LF || chr_eqb ch CR) then
      match rest with
      | next :: rest' =>
        if chr_eqb ch CR && chr_eqb next LF
        then loop rest' (pushRow (pushField st))
        else loop rest (pushRow (pushField st))
      | [] => loop rest (pushRow (pushField st))
      end
    else loop rest (addChar ch st)
  end.

(** After the loop: [pushField()]; then [pushRow()] if [row.length > 1]
    or [row[0]] is not the empty string; [return lines]. *)
Definition finish (st : state) : list (list jsstring) :=
  let st1 := pushField st in
  let keep :=
    (1 <? length (row st1))
    || negb (is_empty (List.hd [] (row st1))) in
  lines (if keep then pushRow st1 else st1).

Definition parseRows (text : jsstring) : list (list jsstring) :=
  finish (loop text init).

End ParseRows.

End Tokenizer.

(** ** The delimiter detector: [detectDelimiter] *)

(** [s.split(/\r?\n/)]: the pieces between the matches of the pattern, which
    matches a line feed, or a carriage return immediately followed by one.
    [cur] is the piece being read. *)
Fixpoint splitLines (cur : jsstring) (s : jsstring) : list jsstring :=
  match s with
  | [] => [cur]
  | c :: s' =>
    if chr_eqb c LF then cur :: splitLines [] s'
    else
      match s' with
      | n :: s'' =>
        if chr_eqb c CR && chr_eqb n LF then cur :: splitLines [] s''
        else splitLines (cur ++ [c]) s'
      | [] => splitLines (cur ++ [c]) s'
      end
  end.

(** [s.split(/\r?\n/, 5).filter(Boolean)]: the limit keeps the first five
    pieces, the filter drops the empty ones among them. *)
Definition sample (s : jsstring) : list jsstring :=
  List.filter (fun l => negb (is_empty l)) (take 5 (splitLines [] s)).

(** [line.split(d)] for a one-unit separator [d]. *)
Fixpoint splitOn (d : char) (cur : jsstring) (line : jsstring)
  : list jsstring :=
  match line with
  | [] => [cur]
  | c :: l' =>
    if chr_eqb c d then cur :: splitOn d [] l'
    else splitOn d (cur ++ [c]) l'
  end.

(** The candidates [",", ";", "\t", "|"], each a one-unit string. *)
Definition COMMA : char := 44%N.
Definition SEMI : char := 59%N.
Definition TAB : char := 9%N.
Definition PIPE : char := 124%N.
Definition candidates : list char := [COMMA; SEMI; TAB; PIPE].

(** The numbers of the detector.  [cols.reduce(...) / cols.length] is the
    exact quotient of two naturals here, [0/0] is NaN.  The quotient is
    kept exact: the sums of at most five column counts over the same
    divisor differ by at least 1/5 when they differ, far more than the
    rounding of the division, so the comparisons of the rounded quotients
    (and with 1) are those of the exact ones. *)
Inductive num := NaN | Num (q : Q).

(** [a > b]; false when either side is NaN. *)
Definition num_gt (a b : num) : bool :=
  match a, b with
  | Num x, Num y => negb (Qle_bool x y)
  | _, _ => false
  end.

Definition columns (smp : list jsstring) (d : char) : list nat :=
  List.map (fun line => length (splitOn d [] line)) smp.

Definition sum (cols : list nat) : nat := fold_left Nat.add cols 0.

Definition average (cols : list nat) : num :=
  match cols with
  | [] => NaN
  | _ => Num (Z.of_nat (sum cols) # Pos.of_nat (length cols))
  end.

(** The body of [for (const d of candidates)] on [(best, maxColumns)]. *)
Definition detectStep (smp : list jsstring) (acc : jsstring * num)
  (d : char) : jsstring * num :=
  let avg := average (columns smp d) in
  if num_gt avg (snd acc) then ([d], avg) else acc.

Definition detectDelimiter (s : jsstring) : jsstring :=
  fst (fold_left (detectStep (sample s)) candidates ([COMMA], Num 1)).

(** ** Values, type inference and records *)

(** The values a cell of a record can hold.  [VNum lit] is the number
    [Number(lit)]; [VObj] is any object a caller passes as [defval]. *)
Inductive value :=
| VUndefined
| VNull
| VBool (b : bool)
| VNum (lit : jsstring)
| VStr (s : jsstring)
| VObj (id : nat).

Global Instance value_eq_dec : EqDecision value.
Proof. solve_decision. Defined.

Definition isDigit (c : char) : bool := ((48 <=? c) && (c <=? 57))%N.

(** The units a letter of an [/i] pattern matches: itself in either ASCII
    case (no unit above 127 canonicalises to an ASCII letter). *)
Definition lowerAscii (c : char) : char :=
  if ((65 <=? c) && (c <=? 90))%N then (c + 32)%N else c.

(** [/^lit$/i.test(s)] for a lower-case ASCII word [lit]. *)
Definition matchesWord (lit : string) (s : jsstring) : bool :=
  str_eqb (List.map lowerAscii s) (js lit).

(** [\d+] read greedily: the rest of the string behind one or more
    digits. *)
Definition digits1 (s : jsstring) : option jsstring :=
  match s with
  | c :: s' => if isDigit c then Some (dropWhile isDigit s') else None
  | [] => None
  end.

(** [/^-?\d+(\.\d+)?([eE][+-]?\d+)?$/.test(s)] *)
Definition isNumeric (s : jsstring) : bool :=
  let s0 := match s with
            | c :: s' => if chr_eqb c 45%N then s' else s
            | [] => s
            end in
  match digits1 s0 with
  | None => false
  | Some r1 =>
    let r2 := match r1 with
              | c :: r => if chr_eqb c 46%N then digits1 r else Some r1
              | [] => Some r1
              end in
    match r2 with
    | None => false
    | Some [] => true
    | Some (e :: r) =>
      if chr_eqb e 101%N || chr_eqb e 69%N then
        let r3 := match r with
                  | c :: r' =>
                    if chr_eqb c 43%N || chr_eqb c 45%N then r' else r
                  | [] => r
                  end in
        match digits1 r3 with
        | Some [] => true
        | _ => false
        end
      else false
    end
  end.

(** [convertToJsTypes].  [Number(s)] of a string that passed the numeric
    pattern is never NaN, so the number is returned. *)
Definition convertToJsTypes (v : value) : value :=
  match v with
  | VStr x =>
    let s := trim x in
    if is_empty s then VStr []
    else if matchesWord "true" s then VBool true
    else if matchesWord "false" s then VBool false
    else if matchesWord "null" s then VNull
    else if isNumeric s then VNum s
    else VStr s
  | _ => v
  end.

(** [a ?? b] *)
Definition nullish (a b : value) : value :=
  match a with
  | VUndefined | VNull => b
  | _ => a
  end.

(** A record is an object literal: its own properties, and its prototype,
    which is [Object.prototype] until an assignment under the key
    [__proto__] replaces it. *)
Inductive proto := ProtoObject | ProtoNull | ProtoOf (id : nat).

Global Instance proto_eq_dec : EqDecision proto.
Proof. solve_decision. Defined.

Record CsvRow := MkRow {
  props : gmap jsstring value;
  prototype : proto
}.

Definition emptyRow : CsvRow := {| props := ∅; prototype := ProtoObject |}.

Definition PROTO : jsstring := js "__proto__".

(** [csvRow[key] = v].  Under the key [__proto__] an object that still
    inherits the accessor of [Object.prototype] runs its setter, which
    replaces the prototype when [v] is null or an object and does nothing
    otherwise, and creates no own property.  (An object passed as [defval]
    is taken to inherit from [Object.prototype] itself.)  Every other
    assignment creates or overwrites the own property. *)
Definition assign (o : CsvRow) (key : jsstring) (v : value) : CsvRow :=
  if str_eqb key PROTO && negb (bool_decide (prototype o = ProtoNull)) then
    match v with
    | VNull => {| props := props o; prototype := ProtoNull |}
    | VObj id => {| props := props o; prototype := ProtoOf id |}
    | _ => o
    end
  else {| props := <[key := v]> (props o); prototype := prototype o |}.

(** [Object.keys(csvRow).length] *)
Definition keyCount (o : CsvRow) : nat := size (props o).

(** ** The options and [parseCSV] *)

Inductive headersOption := HBool (b : bool) | HNames (names : list jsstring).

(** [CsvOptions]: every property is optional; [None] is an absent one.
    [defval] is [VUndefined] when absent. *)
Record CsvOptions := {
  delimiter : option jsstring;
  headers : option headersOption;
  preserveHeaderCase : option bool;
  comment : option jsstring;
  skipEmptyLines : option bool;
  defval : value;
  inferTypes : option bool;
  trimCells : option bool
}.

Definition noOptions : CsvOptions :=
  {| delimiter := None; headers := None; preserveHeaderCase := None;
     comment := None; skipEmptyLines := None; defval := VUndefined;
     inferTypes := None; trimCells := None |}.

(** [s.charCodeAt(0) === 0xfeff ? s.slice(1) : s] *)
Definition stripBOM (s : jsstring) : jsstring :=
  match s with
  | c :: s' => if chr_eqb c BOM then s' else s
  | [] => s
  end.

Definition widestRow (rows : list (list jsstring)) : nat :=
  fold_left (fun w r => if w <? length r then length r else w) rows 0.

(** The template literal [`c${i}`]. *)
Definition synth (i : nat) : jsstring :=
  js "c" ++ js (DecimalString.NilZero.string_of_uint (Nat.to_uint i)).

Section ParseCSV.
(** [String.prototype.toLowerCase], the Unicode case mapping of the
    platform. *)
Variable toLowerCase : jsstring -> jsstring.

(** [v.replace(/^\uFEFF/, ...)]: a leading byte order mark is removed. *)
Definition dropLeadingBOM (v : jsstring) : jsstring :=
  match v with
  | c :: v' => if chr_eqb c BOM then v' else v
  | [] => v
  end.

Definition normalizeHeader (preserve : bool) (h : jsstring) : jsstring :=
  let v := dropLeadingBOM (trim h) in
  if preserve then v else toLowerCase v.

Definition normalizeHeaders (hs : list jsstring) (preserve : bool)
  : list jsstring :=
  List.map (normalizeHeader preserve) hs.

(** The three branches on [headersOption]: the header names and
    [dataStart].  [rows[0]] exists, the empty case has returned. *)
Definition resolveHeaders (rows : list (list jsstring))
  (h : headersOption) (preserve : bool) : list jsstring * nat :=
  match h with
  | HNames names => (normalizeHeaders names preserve, 1)
  | HBool false =>
    (imap (fun i _ => synth i) (List.hd [] rows), 0)
  | HBool true => (normalizeHeaders (List.hd [] rows) preserve, 1)
  end.

(** [for (let i = headerNames.length; i < width; i++)
      headerNames.push(`c${i}`)] *)
Definition widen (headerNames : list jsstring) (width : nat)
  : list jsstring :=
  headerNames
  ++ List.map synth (seq (length headerNames) (width - length headerNames)).

(** The right-hand side of [csvRow[key] = ...] for [cell = row[c]]: the
    conditional binds looser than [??], so [defval] is reached only when
    [inferTypes] is off. *)
Definition cellValue (trimC infer : bool) (dv : value)
  (cell : option jsstring) : value :=
  let cell1 := match cell with
               | Some s => VStr (if trimC then trim s else s)
               | None => VUndefined
               end in
  if infer then convertToJsTypes cell1 else nullish cell1 dv.

(** [headerNames[c]] as a property key; an index past the end would
    read [undefined], the key ["undefined"]. *)
Definition keyAt (headerNames : list jsstring) (c : nat) : jsstring :=
  default (js "undefined") (headerNames !! c).

(** The inner [for (let c = 0; c < width; c++)]. *)
Definition projectRow (headerNames : list jsstring) (width : nat)
  (trimC infer : bool) (dv : value) (r : list jsstring) : CsvRow :=
  fold_left
    (fun o c => assign o (keyAt headerNames c)
                  (cellValue trimC infer dv (r !! c)))
    (seq 0 width) emptyRow.

(** The delimiter in use and the tokenized rows. *)
Definition delimiterOf (input : jsstring) (opts : CsvOptions) : jsstring :=
  match delimiter opts with
  | Some d => d
  | None => detectDelimiter (stripBOM input)
  end.

(** [opts.skipEmptyLines ?? true] *)
Definition skipOf (opts : CsvOptions) : bool :=
  default true (skipEmptyLines opts).

Definition rowsOf (input : jsstring) (opts : CsvOptions)
  : list (list jsstring) :=
  Tokenizer.parseRows (delimiterOf input opts) (comment opts)
    (skipOf opts) (stripBOM input).

(** The defaults of the destructuring of [opts]. *)
Definition headersOf (opts : CsvOptions) : headersOption :=
  default (HBool true) (headers opts).
Definition preserveOf (opts : CsvOptions) : bool :=
  default false (preserveHeaderCase opts).
Definition defvalOf (opts : CsvOptions) : value :=
  match defval opts with VUndefined => VNull | v => v end.
Definition inferOf (opts : CsvOptions) : bool :=
  default false (inferTypes opts).
Definition trimOf (opts : CsvOptions) : bool :=
  default true (trimCells opts).

(** [parseCSV] on a string input ([toText] returns a string as it is). *)
Definition parseCSV (input : jsstring) (opts : CsvOptions)
  : list CsvRow :=
  let rows := rowsOf input opts in
  match rows with
  | [] => []
  | _ =>
    let '(names, dataStart) :=
      resolveHeaders rows (headersOf opts) (preserveOf opts) in
    let width := Nat.max (length names) (widestRow rows) in
    let headerNames := widen names width in
    List.map
      (projectRow headerNames width (trimOf opts) (inferOf opts)
         (defvalOf opts))
      (drop dataStart rows)
  end.

(** The intermediate values of [parseCSV], named for the statements:
    the resolved header names before widening, [dataStart], [width], the
    widened [headerNames], and the projection of one row. *)
Definition namesOf (input : jsstring) (opts : CsvOptions) : list jsstring :=
  fst (resolveHeaders (rowsOf input opts) (headersOf opts)
         (preserveOf opts)).
Definition dataStartOf (input : jsstring) (opts : CsvOptions) : nat :=
  snd (resolveHeaders (rowsOf input opts) (headersOf opts)
         (preserveOf opts)).
Definition widthOf (input : jsstring) (opts : CsvOptions) : nat :=
  Nat.max (length (namesOf input opts)) (widestRow (rowsOf input opts)).
Definition headerNamesOf (input : jsstring) (opts : CsvOptions)
  : list jsstring :=
  widen (namesOf input opts) (widthOf input opts).
Definition projectOf (input : jsstring) (opts : CsvOptions)
  : list jsstring -> CsvRow :=
  projectRow (headerNamesOf input opts) (widthOf input opts)
    (trimOf opts) (inferOf opts) (defvalOf opts).

End ParseCSV.

(** [toLowerCase] on ASCII text. *)
Definition asciiLower (s : jsstring) : jsstring := List.map lowerAscii s.


(** An object literal [{k1: v1, k2: v2, ...}]. *)
Definition record (kvs : list (jsstring * value)) : CsvRow :=
  fold_left (fun o kv => assign o kv.1 kv.2) kvs emptyRow.

(** ** Definitions the statements use *)

(** The text behind the first line feed of [r], if there is one. *)
Fixpoint afterLF (r : jsstring) : option jsstring :=
  match r with
  | [] => None
  | c :: r' => if chr_eqb c LF then Some r' else afterLF r'
  end.

(** The quoted encoding of a field: quotes doubled, the whole in quotes. *)
Definition doubleQuotes (s : jsstring) : jsstring :=
  flat_map (fun c => if chr_eqb c QUOTE then [QUOTE; QUOTE] else [c]) s.
Definition quoteField (s : jsstring) : jsstring :=
  QUOTE :: doubleQuotes s ++ [QUOTE].

(** A text with every line feed turned into a carriage return and a line
    feed. *)
Definition crlf (s : jsstring) : jsstring :=
  flat_map (fun c => if chr_eqb c LF then [CR; LF] else [c]) s.

(** [insCR p t t']: the text [t'] is the text [t] with a carriage return
    put before some of its line feeds that had none before them; nothing
    else differs.  [p] tells whether a carriage return stands right before
    the texts. *)
Inductive insCR : bool -> jsstring -> jsstring -> Prop :=
  | insCR_nil p : insCR p [] []
  | insCR_copy p c t t' :
      insCR (chr_eqb c CR) t t' -> insCR p (c :: t) (c :: t')
  | insCR_line t t' :
      insCR false t t' -> insCR false (LF :: t) (CR :: LF :: t').

(** A text with a carriage return put before every line feed outside
    quotes, a quote being open after an odd number of quote characters. *)
Fixpoint crlfOutside (q : bool) (s : jsstring) : jsstring :=
  match s with
  | [] => []
  | c :: s' =>
    if chr_eqb c QUOTE then c :: crlfOutside (negb q) s'
    else if negb q && chr_eqb c LF then CR :: LF :: crlfOutside q s'
    else c :: crlfOutside q s'
  end.

(** A line ending written CRLF: the line feed gets a carriage return,
    unless one stands before it already. *)
Definition lineEnding (prevCR : bool) : jsstring :=
  if prevCR then [LF] else [CR; LF].

(** A comment line copied up to its line feed, which ends the line and is
    written as a CRLF line ending; [k] writes the text behind it. *)
Definition copyLine (k : jsstring -> jsstring)
  : bool -> jsstring -> jsstring :=
  fix copy (prevCR : bool) (r : jsstring) : jsstring :=
    match r with
    | [] => []
    | c :: r' =>
      if chr_eqb c LF then lineEnding prevCR ++ k r'
      else c :: copy (chr_eqb c CR) r'
    end.

(** A text with its line endings written CRLF.  The copy follows the
    tokenizer through the text, in the state [st] the tokenizer is in: a
    line feed that ends a row or a comment line is written as a carriage
    return and a line feed; everything else is copied as it is, a line
    break inside a quoted field, which is content, included.  A carriage
    return that ends a row, alone or with its line feed, is a line ending
    written already. *)
Fixpoint toCRLF (d : jsstring) (comment : option jsstring) (skip : bool)
  (text : jsstring) (st : Tokenizer.state) (prevCR : bool) {struct text}
  : jsstring :=
  match text with
  | [] => []
  | ch :: rest =>
    if Tokenizer.commentStart comment st ch then
      if chr_eqb ch LF
      then lineEnding prevCR ++ toCRLF d comment skip rest st false
      else ch :: copyLine (fun r => toCRLF d comment skip r st false)
                   (chr_eqb ch CR) rest
    else if chr_eqb ch QUOTE then
      match rest with
      | next :: rest' =>
        if Tokenizer.inQuotes st && chr_eqb next QUOTE
        then QUOTE :: QUOTE
             :: toCRLF d comment skip rest' (Tokenizer.addChar QUOTE st) false
        else QUOTE :: toCRLF d comment skip rest (Tokenizer.toggle st) false
      | [] => [QUOTE]
      end
    else if negb (Tokenizer.inQuotes st) && str_eqb d [ch] then
      ch :: toCRLF d comment skip rest (Tokenizer.pushField st)
              (chr_eqb ch CR)
    else if negb (Tokenizer.inQuotes st)
            && (chr_eqb ch LF || chr_eqb ch CR) then
      let st' := Tokenizer.pushRow skip (Tokenizer.pushField st) in
      if chr_eqb ch LF
      then lineEnding prevCR ++ toCRLF d comment skip rest st' false
      else
        match rest with
        | next :: rest' =>
          if chr_eqb next LF
          then CR :: LF :: toCRLF d comment skip rest' st' false
          else CR :: toCRLF d comment skip rest st' true
        | [] => [CR]
        end
    else ch :: toCRLF d comment skip rest (Tokenizer.addChar ch st)
                 (chr_eqb ch CR)
  end.

(** The input of [parseCSV] with its line endings written CRLF, for the
    delimiter and the comment prefix the parse of the input works with; a
    leading byte order mark, which [stripBOM] removes before the
    tokenizer runs, stays in front. *)
Definition crlfText (input : jsstring) (opts : CsvOptions) : jsstring :=
  let copy t :=
    toCRLF (delimiterOf input opts) (comment opts) (skipOf opts) t
      Tokenizer.init false in
  match input with
  | c :: s' => if chr_eqb c BOM then BOM :: copy s' else copy input
  | [] => []
  end.

(** The sample as the specification words it: the lines between CR, LF
    or CRLF line endings, and of these the first five non-empty ones. *)
Fixpoint specLines (cur : jsstring) (s : jsstring) : list jsstring :=
  match s with
  | [] => [cur]
  | c :: s' =>
    if chr_eqb c LF then cur :: specLines [] s'
    else if chr_eqb c CR then
      match s' with
      | n :: s'' =>
        if chr_eqb n LF then cur :: specLines [] s''
        else cur :: specLines [] s'
      | [] => cur :: specLines [] s'
      end
    else specLines (cur ++ [c]) s'
  end.
Definition specSample (s : jsstring) : list jsstring :=
  take 5 (List.filter (fun l => negb (is_empty l)) (specLines [] s)).

(** The split as the amended statement words it: the text is cut at its
    line feeds, and a piece that a line feed ends loses the carriage return
    it ends with, if it ends with one; the last piece is kept as it is. *)
Definition dropLastCR (l : jsstring) : jsstring :=
  match rev l with
  | c :: r => if chr_eqb c CR then rev r else l
  | [] => l
  end.
Definition linePieces (s : jsstring) : list jsstring :=
  List.map dropLastCR (removelast (splitOn LF [] s))
  ++ [List.last (splitOn LF [] s) []].

(** The average column count of candidate [d] over a non-empty sample. *)
Definition avgQ (smp : list jsstring) (d : char) : Q :=
  Z.of_nat (sum (columns smp d)) # Pos.of_nat (length smp).

(** A row of exactly one field. *)
Definition oneField (r : list jsstring) : Prop := length r = 1.

(** The row the end of input closes, and whether it is emitted. *)
Definition lastRow (st : Tokenizer.state) : list jsstring :=
  Tokenizer.row st ++ [Tokenizer.field st].

(** The rows of a text read line by line when nothing splits a line:
    every line is the one field of its row; a row the filter of [pushRow]
    rejects is dropped; an empty last line gives no row. *)
Fixpoint wholeLineRows (skip : bool) (ls : list jsstring)
  : list (list jsstring) :=
  match ls with
  | [] => []
  | l :: ls' =>
    match ls' with
    | [] => if is_empty l || Tokenizer.blankRow skip [l] then [] else [[l]]
    | _ :: _ =>
      (if Tokenizer.blankRow skip [l] then [] else [[l]])
      ++ wholeLineRows skip ls'
    end
  end.

(** ** Definitions the further statements use *)

(** The rows of a text read line by line: every line is split at the
    delimiter; a row the filter of [pushRow] rejects is dropped; an empty
    last line gives no row. *)
Fixpoint naiveRows (d : char) (skip : bool) (ls : list jsstring)
  : list (list jsstring) :=
  match ls with
  | [] => []
  | l :: ls' =>
    match ls' with
    | [] =>
      if is_empty l || Tokenizer.blankRow skip (splitOn d [] l) then []
      else [splitOn d [] l]
    | _ :: _ =>
      (if Tokenizer.blankRow skip (splitOn d [] l) then []
       else [splitOn d [] l])
      ++ naiveRows d skip ls'
    end
  end.

(** A text with every line feed turned into a carriage return. *)
Definition crOnly (s : jsstring) : jsstring :=
  List.map (fun c => if chr_eqb c LF then CR else c) s.

(** The tokenizer state with [crOnly] applied to every string it holds. *)
Definition crState (st : Tokenizer.state) : Tokenizer.state :=
  {| Tokenizer.field := crOnly (Tokenizer.field st);
     Tokenizer.row := List.map crOnly (Tokenizer.row st);
     Tokenizer.inQuotes := Tokenizer.inQuotes st;
     Tokenizer.lines := List.map (List.map crOnly) (Tokenizer.lines st) |}.

(** One or more decimal digits. *)
Definition allDigits (l : jsstring) : Prop :=
  l <> [] /\ Forall (fun c => isDigit c = true) l.

(** The strings of the numeric pattern, part by part: an optional minus
    sign, digits, an optional fraction of a dot and digits, an optional
    exponent of [e] or [E], an optional sign and digits. *)
Definition numberShape (s : jsstring) : Prop :=
  exists sign int frac ex,
    s = sign ++ int ++ frac ++ ex
    /\ (sign = [] \/ sign = [45%N])
    /\ allDigits int
    /\ (frac = [] \/ exists fd, frac = 46%N :: fd /\ allDigits fd)
    /\ (ex = []
        \/ exists e sg ed,
             ex = e :: sg ++ ed
             /\ (e = 101%N \/ e = 69%N)
             /\ (sg = [] \/ sg = [43%N] \/ sg = [45%N])
             /\ allDigits ed).

(** Case analysis on membership in a list given by its elements. *)
Ltac cand_cases H :=
  repeat (apply elem_of_cons in H as [->|H]);
  [..|by apply elem_of_nil in H].

(** The comparisons among the three characters the loop names. *)
Ltac chr_consts :=
  change (chr_eqb CR QUOTE) with false;
  change (chr_eqb LF QUOTE) with false;
  change (chr_eqb QUOTE QUOTE) with true;
  change (chr_eqb CR LF) with false;
  change (chr_eqb LF CR) with false;
  change (chr_eqb CR CR) with true;
  change (chr_eqb LF LF) with true;
  change (chr_eqb QUOTE LF) with false;
  change (chr_eqb QUOTE CR) with false.

(** A decidable proposition settled by evaluating its decision. *)
Ltac by_decide :=
  match goal with
  | |- ?P => apply (bool_decide_eq_true_1 P); vm_compute; reflexivity
  end.

(** * Proofs *)

(** ** The tests of the repository, run on the embedding *)

Example test_simple :
  parseCSV asciiLower
    (js "name,age,city" ++ [LF] ++ js "Alice,30,Paris" ++ [LF]
     ++ js "Bob,28,Berlin") noOptions
  = [record [(js "name", VStr (js "Alice")); (js "age", VStr (js "30"));
             (js "city", VStr (js "Paris"))];
     record [(js "name", VStr (js "Bob")); (js "age", VStr (js "28"));
             (js "city", VStr (js "Berlin"))]].
Proof. by vm_compute. Qed.

Example test_semicolon :
  parseCSV asciiLower
    (js "name;age;city" ++ [LF] ++ js "Alice;30;Paris" ++ [LF]
     ++ js "Bob;28;Berlin") noOptions !! 0
  = Some (record [(js "name", VStr (js "Alice")); (js "age", VStr (js "30"));
                  (js "city", VStr (js "Paris"))]).
Proof. by vm_compute. Qed.

Example test_quotes :
  parseCSV asciiLower
    (js "name,quote" ++ [LF; QUOTE] ++ js "Alice, Jr." ++ [QUOTE]
     ++ js "," ++ [QUOTE] ++ js "She said " ++ [QUOTE; QUOTE] ++ js "Hi"
     ++ [QUOTE; QUOTE; QUOTE]) noOptions
  = [record [(js "name", VStr (js "Alice, Jr."));
             (js "quote",
              VStr (js "She said " ++ [QUOTE] ++ js "Hi" ++ [QUOTE]))]].
Proof. by vm_compute. Qed.

Example test_crlf :
  parseCSV asciiLower
    (js "name,age" ++ [CR; LF] ++ js "Alice,30" ++ [CR; LF] ++ js "Bob,28"
     ++ [CR; LF]) noOptions
  = [record [(js "name", VStr (js "Alice")); (js "age", VStr (js "30"))];
     record [(js "name", VStr (js "Bob")); (js "age", VStr (js "28"))]].
Proof. by vm_compute. Qed.

Example test_empty_lines :
  length (parseCSV asciiLower
            (js "name,age" ++ [LF; LF] ++ js "Alice,30" ++ [LF; LF]
             ++ js "Bob,28" ++ [LF]) noOptions) = 2.
Proof. by vm_compute. Qed.

Example test_comments :
  parseCSV asciiLower
    (js "# header comment" ++ [LF] ++ js "name,age" ++ [LF]
     ++ js "Alice,30" ++ [LF] ++ js "# another comment" ++ [LF]
     ++ js "Bob,28")
    (Build_CsvOptions None None None (Some (js "#")) None VUndefined
       None None)
  = [record [(js "name", VStr (js "Alice")); (js "age", VStr (js "30"))];
     record [(js "name", VStr (js "Bob")); (js "age", VStr (js "28"))]].
Proof. by vm_compute. Qed.

Example test_bom :
  parseCSV asciiLower ([BOM] ++ js "name,age" ++ [LF] ++ js "Alice,30")
    noOptions
  = [record [(js "name", VStr (js "Alice")); (js "age", VStr (js "30"))]].
Proof. by vm_compute. Qed.

Example test_no_headers :
  parseCSV asciiLower (js "name,age" ++ [LF] ++ js "Alice,30")
    (Build_CsvOptions None (Some (HBool false)) None None None VUndefined
       None None)
  = [record [(js "c0", VStr (js "name")); (js "c1", VStr (js "age"))];
     record [(js "c0", VStr (js "Alice")); (js "c1", VStr (js "30"))]].
Proof. by vm_compute. Qed.

Example test_preserve_case :
  parseCSV asciiLower (js "First Name,Age" ++ [LF] ++ js "Alice,30")
    (Build_CsvOptions None None (Some true) None None VUndefined None None)
  = [record [(js "First Name", VStr (js "Alice"));
             (js "Age", VStr (js "30"))]].
Proof. by vm_compute. Qed.

Example test_infer_types :
  parseCSV asciiLower (js "a,b,c,d" ++ [LF] ++ js "true,null,42,3.14")
    (Build_CsvOptions None None None None None VUndefined (Some true) None)
  = [record [(js "a", VBool true); (js "b", VNull);
             (js "c", VNum (js "42")); (js "d", VNum (js "3.14"))]].
Proof. by vm_compute. Qed.

Example test_defval :
  parseCSV asciiLower
    (js "a,b,c" ++ [LF] ++ js "1,2" ++ [LF] ++ js "3,4,5")
    (Build_CsvOptions None None None None None (VStr (js "-")) None None)
  = [record [(js "a", VStr (js "1")); (js "b", VStr (js "2"));
             (js "c", VStr (js "-"))];
     record [(js "a", VStr (js "3")); (js "b", VStr (js "4"));
             (js "c", VStr (js "5"))]].
Proof. by vm_compute. Qed.

Example test_no_trim :
  parseCSV asciiLower
    (js "name , age " ++ [LF] ++ js " Alice , 30 " ++ [LF]
     ++ js " Bob , 28 ")
    (Build_CsvOptions None None None None None VUndefined None (Some false))
  = [record [(js "name", VStr (js " Alice ")); (js "age", VStr (js " 30 "))];
     record [(js "name", VStr (js " Bob ")); (js "age", VStr (js " 28 "))]].
Proof. by vm_compute. Qed.

Example test_quoted_delimiter :
  parseCSV asciiLower
    (js "a,b" ++ [LF; QUOTE] ++ js "ends with quote," ++ [QUOTE]
     ++ js "," ++ [QUOTE] ++ js "x" ++ [QUOTE]) noOptions
  = [record [(js "a", VStr (js "ends with quote,")); (js "b", VStr (js "x"))]].
Proof. by vm_compute. Qed.

(** ** Induction on the length of the remaining text *)

Lemma text_len_ind (P : jsstring -> Prop) :
  (forall t, (forall t', length t' < length t -> P t') -> P t) ->
  forall t, P t.
Proof.
  intros step t.
  remember (length t) as n eqn:Hn.
  revert t Hn.
  induction n as [n IH] using lt_wf_ind.
  intros t ->. apply step. intros t' Hlt. by eapply IH.
Qed.

Lemma afterLF_shorter r r' : afterLF r = Some r' -> length r' < length r.
Proof.
  revert r'. induction r as [|c r IH]; intros r'; simpl; [done|].
  destruct (chr_eqb c LF).
  - intros [= ->]. lia.
  - intros H. apply IH in H. lia.
Qed.

Lemma skipLine_afterLF {A} (k : jsstring -> A) (e : A) r :
  Tokenizer.skipLine k e r
  = match afterLF r with Some r' => k r' | None => e end.
Proof.
  induction r as [|c r IH]; simpl; [done|].
  by destruct (chr_eqb c LF).
Qed.

Lemma match_list_same {A B} (l : list A) (x : B) :
  match l with [] => x | _ :: _ => x end = x.
Proof. by destruct l. Qed.

Lemma chr_eqb_eq a b : chr_eqb a b = true <-> a = b.
Proof. apply N.eqb_eq. Qed.

Lemma chr_eqb_neq a b : chr_eqb a b = false <-> a <> b.
Proof. apply N.eqb_neq. Qed.

Lemma str_eqb_eq a b : str_eqb a b = true <-> a = b.
Proof. unfold str_eqb. by rewrite bool_decide_eq_true. Qed.

Lemma str_eqb_neq a b : str_eqb a b = false <-> a <> b.
Proof. unfold str_eqb. by rewrite bool_decide_eq_false. Qed.

(** ** The loop depends on the delimiter and on the comment prefix only
       through their comparisons with one-unit strings *)

Lemma loop_ext d d' c c' skip :
  (forall ch, str_eqb d [ch] = str_eqb d' [ch]) ->
  (forall ch, Tokenizer.isComment c ch = Tokenizer.isComment c' ch) ->
  forall text st,
    Tokenizer.loop d c skip text st = Tokenizer.loop d' c' skip text st.
Proof.
  intros Hd Hc text.
  induction text as [text IH] using text_len_ind. intros st.
  destruct text as [|ch rest]; [done|].
  cbn [Tokenizer.loop]. unfold Tokenizer.commentStart.
  rewrite <- Hc, <- Hd.
  assert (Hrest : forall st', Tokenizer.loop d c skip rest st'
                            = Tokenizer.loop d' c' skip rest st').
  { intros st'. apply IH. simpl. lia. }
  assert (Hrest' : forall n r st', rest = n :: r ->
            Tokenizer.loop d c skip r st' = Tokenizer.loop d' c' skip r st').
  { intros n r st' ->. apply IH. simpl. lia. }
  rewrite !skipLine_afterLF.
  assert (Hskip : match afterLF rest with
                  | Some r' => Tokenizer.loop d c skip r' st
                  | None => st
                  end
                  = match afterLF rest with
                    | Some r' => Tokenizer.loop d' c' skip r' st
                    | None => st
                    end).
  { destruct (afterLF rest) as [r'|] eqn:E; [|done].
    apply IH. apply afterLF_shorter in E. simpl. lia. }
  rewrite Hskip, !Hrest.
  destruct rest as [|n r]; [done|].
  by rewrite !(Hrest' n r).
Qed.

Lemma afterLF_app body tail :
  LF ∉ body -> afterLF (body ++ LF :: tail) = Some tail.
Proof.
  induction body as [|c body IH]; intros Hnot; simpl; [done|].
  apply not_elem_of_cons in Hnot as [Hc Hb].
  destruct (chr_eqb c LF) eqn:E; [apply chr_eqb_eq in E; congruence|].
  by apply IH.
Qed.

Lemma afterLF_none body : LF ∉ body -> afterLF body = None.
Proof.
  induction body as [|c body IH]; intros Hnot; simpl; [done|].
  apply not_elem_of_cons in Hnot as [Hc Hb].
  destruct (chr_eqb c LF) eqn:E; [apply chr_eqb_eq in E; congruence|].
  by apply IH.
Qed.

(** The first iteration on a comment character in a clean state. *)
Lemma loop_comment d c skip rest st :
  Tokenizer.inQuotes st = false -> Tokenizer.field st = [] ->
  Tokenizer.row st = [] ->
  Tokenizer.loop d (Some [c]) skip (c :: rest) st
  = match afterLF (c :: rest) with
    | Some r' => Tokenizer.loop d (Some [c]) skip r' st
    | None => st
    end.
Proof.
  intros Hq Hf Hr. cbn [Tokenizer.loop afterLF].
  unfold Tokenizer.commentStart, Tokenizer.isComment.
  rewrite Hq, Hf, Hr. cbn [negb is_empty andb].
  replace (str_eqb [c] [c]) with true by (symmetry; by apply str_eqb_eq).
  destruct (chr_eqb c LF); [done|].
  apply skipLine_afterLF.
Qed.

(** C7 (as amended).  With a one-character comment prefix [c], in a state
    outside quotes with an empty field and an empty row, a text that starts
    with [c] is skipped up to and including its first line feed (or to its
    end when it has none), and the state stays as it was: no field and no
    row is emitted, and the loop goes on from the character behind the line
    feed. *)
Theorem comment_prefix_rule d c skip st :
  Tokenizer.inQuotes st = false -> Tokenizer.field st = [] ->
  Tokenizer.row st = [] ->
  (forall line tail, LF ∉ line -> head (line ++ [LF]) = Some c ->
     Tokenizer.loop d (Some [c]) skip (line ++ LF :: tail) st
     = Tokenizer.loop d (Some [c]) skip tail st)
  /\ (forall line, LF ∉ line -> head line = Some c ->
        Tokenizer.loop d (Some [c]) skip line st = st).
Proof.
  intros Hq Hf Hr. split.
  - intros line tail Hl Hhd.
    assert (Hc : line ++ LF :: tail = c :: List.tl (line ++ LF :: tail)).
    { destruct line; simpl in *; congruence. }
    rewrite Hc, loop_comment, <- Hc by done. by rewrite afterLF_app.
  - intros line Hl Hhd.
    destruct line as [|c0 body]; [done|]. injection Hhd as ->.
    rewrite loop_comment by done. by rewrite afterLF_none.
Qed.

Lemma comment_prefix_rule_witness :
  Tokenizer.loop [COMMA] (Some (js "#")) true
    (js "#x" ++ LF :: js "a") Tokenizer.init
  = Tokenizer.loop [COMMA] (Some (js "#")) true (js "a") Tokenizer.init.
Proof.
  apply (proj1 (comment_prefix_rule [COMMA] 35%N true Tokenizer.init
                  eq_refl eq_refl eq_refl)
           (js "#x") (js "a")); [|reflexivity].
  vm_compute. intros H.
  repeat (apply elem_of_cons in H as [H|H]; [discriminate|]).
  by apply elem_of_nil in H.
Defined.

(** C7 (the claim as written fails).  The claim compares the first
    character of the prefix: under the prefix [##] the line [#x], which
    does not start with that prefix, would be skipped and the loop would go
    on from [a] in the same state.  The code keeps the line. *)
Lemma comment_prefix_counterexample :
  Tokenizer.parseRows [COMMA] (Some (js "##")) true
    (js "#x" ++ [LF] ++ js "a")
  = [[js "#x"]; [js "a"]]
  /\ Tokenizer.loop [COMMA] (Some (js "##")) true
       (js "#x" ++ [LF] ++ js "a") Tokenizer.init
     <> Tokenizer.loop [COMMA] (Some (js "##")) true (js "a") Tokenizer.init.
Proof. split; [reflexivity|]. vm_compute. discriminate. Qed.

(** ** The end of the input *)

Lemma finish_cases skip st :
  Tokenizer.finish skip st
  = if (negb (is_empty (Tokenizer.row st))
        || negb (is_empty (Tokenizer.field st)))
       && negb (skip && is_empty (Tokenizer.row st)
                && is_empty (trim (Tokenizer.field st)))
    then Tokenizer.lines st ++ [lastRow st]
    else Tokenizer.lines st.
Proof.
  unfold Tokenizer.finish, lastRow. destruct st as [f r q l]. simpl.
  unfold Tokenizer.blankRow.
  destruct r as [|f0 [|f1 r]]; simpl.
  - destruct f as [|ch f]; simpl; [done|].
    destruct skip; simpl; [|done].
    by destruct (is_empty (trim (ch :: f))).
  - rewrite !andb_false_r. simpl. unfold Tokenizer.blankRow.
    by rewrite andb_false_r.
  - rewrite !andb_false_r. simpl. unfold Tokenizer.blankRow.
    by rewrite andb_false_r.
Qed.

Lemma is_empty_true {A} (s : list A) : is_empty s = true <-> s = [].
Proof. by destruct s. Qed.

Lemma is_empty_true_neg {A} (s : list A) : is_empty s = false -> s <> [].
Proof. by destruct s. Qed.

(** C9 (as amended).  At the end of the input the current field is closed
    into the row buffer, whatever it holds.  The closed row is emitted if
    and only if it has more than one field or its single field is not
    empty, and the row filter of [pushRow] lets it pass: it is not the
    case that [skipEmptyLines] is on and the row is a single field that
    trims to the empty string.  Otherwise the rows are those emitted
    before. *)
Theorem end_of_input_rule d c skip text :
  let st := Tokenizer.loop d c skip text Tokenizer.init in
  let nonEmpty :=
    1 < length (lastRow st) \/ exists f, lastRow st = [f] /\ f <> [] in
  let blank :=
    skip = true /\ exists f, lastRow st = [f] /\ trim f = [] in
  lastRow st = Tokenizer.row st ++ [Tokenizer.field st]
  /\ (nonEmpty /\ ~ blank ->
      Tokenizer.parseRows d c skip text = Tokenizer.lines st ++ [lastRow st])
  /\ (~ (nonEmpty /\ ~ blank) ->
      Tokenizer.parseRows d c skip text = Tokenizer.lines st).
Proof.
  intros st nonEmpty blank. unfold Tokenizer.parseRows. fold st.
  rewrite finish_cases. split; [done|].
  assert (Hne : nonEmpty <->
    negb (is_empty (Tokenizer.row st))
    || negb (is_empty (Tokenizer.field st)) = true).
  { unfold nonEmpty, lastRow.
    destruct (Tokenizer.row st) as [|f0 r]; simpl.
    - destruct (Tokenizer.field st) as [|ch f]; simpl.
      + split; [|done]. intros [H|(f & [= <-] & H)]; [lia|done].
      + split; [done|]. intros _. right. by eexists.
    - split; [done|]. intros _. left. rewrite length_app. simpl. lia. }
  assert (Hbl : blank <->
    skip && is_empty (Tokenizer.row st)
    && is_empty (trim (Tokenizer.field st)) = true).
  { unfold blank, lastRow. rewrite !andb_true_iff, !is_empty_true.
    split.
    - intros (-> & f & Heq & Hf).
      destruct (Tokenizer.row st) as [|f0 [|f1 r]]; simplify_eq/=; done.
    - intros [[-> ->] Hf]. split; [done|]. by eexists. }
  split.
  - intros [H1 H2]. apply Hne in H1. rewrite H1.
    destruct (skip && _ && _) eqn:E; [|done].
    exfalso. by apply H2, Hbl.
  - intros H.
    destruct (negb _ || negb _) eqn:E1; [|done].
    destruct (skip && _ && _) eqn:E2; [done|].
    exfalso. apply H. split; [by apply Hne|].
    intros Hb. apply Hbl in Hb. congruence.
Qed.

Lemma end_of_input_rule_witness :
  Tokenizer.parseRows [COMMA] None true (js "a,b" ++ [LF] ++ js "c")
  = [[js "a"; js "b"]] ++ [[js "c"]].
Proof.
  apply (proj1 (proj2 (end_of_input_rule [COMMA] None true
                         (js "a,b" ++ [LF] ++ js "c")))).
  split.
  - right. exists (js "c"). split; [reflexivity|discriminate].
  - intros (_ & f & Heq & Hf). vm_compute in Heq.
    injection Heq as <-. vm_compute in Hf. discriminate.
Defined.

(** C9 (the claim as written fails).  On the text of one space, with
    [skipEmptyLines] on, the closed row is the single non-empty field of
    one space, and no row is emitted. *)
Lemma end_of_input_counterexample :
  let st := Tokenizer.loop [COMMA] None true (js " ") Tokenizer.init in
  lastRow st = [js " "] /\ js " " <> []
  /\ Tokenizer.parseRows [COMMA] None true (js " ") = []
  /\ Tokenizer.parseRows [COMMA] None true (js " ")
     <> Tokenizer.lines st ++ [lastRow st].
Proof. vm_compute. repeat split; discriminate. Qed.

(** ** A delimiter that is not one character long *)

Lemma loop_single d c skip :
  length d <> 1 ->
  forall text st,
    Tokenizer.row st = [] -> Forall oneField (Tokenizer.lines st) ->
    Tokenizer.row (Tokenizer.loop d c skip text st) = []
    /\ Forall oneField (Tokenizer.lines (Tokenizer.loop d c skip text st)).
Proof.
  intros Hd text.
  induction text as [text IH] using text_len_ind. intros st Hr Hl.
  destruct text as [|ch rest]; [done|].
  assert (Hnl : forall st', Tokenizer.row st' = [] ->
            Forall oneField (Tokenizer.lines st') ->
            Tokenizer.row (Tokenizer.pushRow skip (Tokenizer.pushField st')) = []
            /\ Forall oneField
                 (Tokenizer.lines (Tokenizer.pushRow skip (Tokenizer.pushField st')))).
  { intros st' Hr' Hl'. split; [done|]. simpl. rewrite Hr'.
    destruct (Tokenizer.blankRow _ _); [done|].
    apply Forall_app. split; [done|]. by repeat constructor. }
  cbn [Tokenizer.loop]. rewrite skipLine_afterLF.
  replace (str_eqb d [ch]) with false
    by (symmetry; apply str_eqb_neq; intros ->; by apply Hd).
  rewrite andb_false_r.
  repeat match goal with
  | |- context [if ?b then _ else _] => destruct b
  | |- context [match afterLF ?r with _ => _ end] =>
      let E := fresh "E" in
      destruct (afterLF r) eqn:E; [apply afterLF_shorter in E|]
  | |- context [match ?r with [] => _ | _ :: _ => _ end] => destruct r
  end;
  try done;
  try (apply IH; [simpl in *; lia| try done; try (by apply Hnl) ..]).
  all: try (apply IH; [simpl in *; lia | by apply (Hnl st) | by apply (Hnl st)]).
Qed.

Lemma specLines_nonempty s : forall cur, specLines cur s <> [].
Proof.
  induction s as [|c s IH]; intros cur; [done|].
  cbn [specLines].
  destruct (chr_eqb c LF); [done|].
  destruct (chr_eqb c CR); [|apply IH].
  destruct s as [|n s']; [done|]. by destruct (chr_eqb n LF).
Qed.

Lemma wholeLineRows_cons skip l ls :
  ls <> [] ->
  wholeLineRows skip (l :: ls)
  = (if Tokenizer.blankRow skip [l] then [] else [[l]])
    ++ wholeLineRows skip ls.
Proof. by destruct ls. Qed.

(** On a text without quotes, with no comment prefix and a delimiter that
    is not one character long, the loop closes a row at every line ending
    and nowhere a field. *)
Lemma finish_loop_whole d skip :
  length d <> 1 ->
  forall text st,
    QUOTE ∉ text -> Tokenizer.inQuotes st = false -> Tokenizer.row st = [] ->
    Tokenizer.finish skip (Tokenizer.loop d None skip text st)
    = Tokenizer.lines st
      ++ wholeLineRows skip (specLines (Tokenizer.field st) text).
Proof.
  intros Hd text.
  induction text as [text IH] using text_len_ind. intros st Hnq Hq Hr.
  destruct text as [|ch rest].
  - cbn [Tokenizer.loop specLines wholeLineRows].
    rewrite finish_cases. unfold lastRow, Tokenizer.blankRow.
    rewrite Hr. cbn [is_empty negb orb app andb].
    destruct (is_empty (Tokenizer.field st)); cbn [negb orb andb];
      [by rewrite app_nil_r|].
    rewrite andb_true_r.
    destruct (skip && _); cbn [negb]; [by rewrite app_nil_r|done].
  - apply not_elem_of_cons in Hnq as [Hch Hrest].
    assert (Hnl : forall r, QUOTE ∉ r -> length r < length (ch :: rest) ->
      Tokenizer.finish skip
        (Tokenizer.loop d None skip r
           (Tokenizer.pushRow skip (Tokenizer.pushField st)))
      = Tokenizer.lines st
        ++ wholeLineRows skip (Tokenizer.field st :: specLines [] r)).
    { intros r Hr' Hlen. rewrite IH by done.
      rewrite wholeLineRows_cons by apply specLines_nonempty.
      cbn [Tokenizer.pushRow Tokenizer.pushField Tokenizer.lines
           Tokenizer.row Tokenizer.field].
      rewrite Hr. cbn [app].
      destruct (Tokenizer.blankRow skip [Tokenizer.field st]);
        [done|by rewrite <- app_assoc]. }
    cbn [Tokenizer.loop specLines].
    unfold Tokenizer.commentStart, Tokenizer.isComment.
    rewrite !andb_false_r, Hq.
    replace (chr_eqb ch QUOTE) with false
      by (symmetry; apply chr_eqb_neq; congruence).
    replace (str_eqb d [ch]) with false
      by (symmetry; apply str_eqb_neq; intros ->; by apply Hd).
    cbn [negb andb].
    destruct (chr_eqb ch LF) eqn:ELF.
    + cbn [orb]. apply chr_eqb_eq in ELF as ->. chr_consts. cbn [andb].
      rewrite match_list_same. apply Hnl; [done|simpl; lia].
    + cbn [orb]. destruct (chr_eqb ch CR) eqn:ECR.
      * cbn [andb]. destruct rest as [|n rest'].
        { apply Hnl; [done|simpl; lia]. }
        apply not_elem_of_cons in Hrest as [Hn Hrest'].
        destruct (chr_eqb n LF).
        -- apply Hnl; [done|simpl; lia].
        -- apply Hnl; [by apply not_elem_of_cons|simpl; lia].
      * rewrite IH; [done|simpl; lia|done|done|done].
Qed.

(** C10.  A delimiter of two or more characters never equals the one
    character it is compared with: the loop never closes a field on it.  So
    every emitted row has exactly one field, whatever the text; the rows do
    not depend on which such delimiter was given; and on a text without
    quotes (no comment prefix being configured) the rows are the physical
    lines of the text, between LF, CR or CRLF line endings, each whole line
    the one field of its row, less the lines the filter of [pushRow] drops
    and less an empty last line. *)
Theorem long_delimiter_never_splits d c skip text :
  2 <= length d ->
  Forall (fun r => length r = 1) (Tokenizer.parseRows d c skip text)
  /\ (forall d', 2 <= length d' ->
        Tokenizer.parseRows d' c skip text = Tokenizer.parseRows d c skip text)
  /\ (QUOTE ∉ text ->
      Tokenizer.parseRows d None skip text
      = wholeLineRows skip (specLines [] text)).
Proof.
  intros Hd. split; [|split].
  - unfold Tokenizer.parseRows, Tokenizer.finish.
    destruct (loop_single d c skip ltac:(lia) text Tokenizer.init
                eq_refl ltac:(constructor)) as [Hr Hl].
    cbn [Tokenizer.pushField Tokenizer.row]. rewrite Hr. cbn [app length].
    destruct (_ || _); [|done].
    cbn [Tokenizer.pushRow Tokenizer.lines Tokenizer.pushField Tokenizer.row].
    rewrite Hr. destruct (Tokenizer.blankRow _ _); [done|].
    apply Forall_app. split; [done|]. by repeat constructor.
  - intros d' Hd'. unfold Tokenizer.parseRows. f_equal.
    apply loop_ext; [|done]. intros ch.
    transitivity false; [|symmetry]; apply str_eqb_neq; intros ->;
      simpl in *; lia.
  - intros Hq. unfold Tokenizer.parseRows.
    by rewrite finish_loop_whole by (done || lia).
Qed.

Lemma long_delimiter_never_splits_witness :
  Tokenizer.parseRows (js "::") None true
    (js "a::b" ++ [LF] ++ js "c::d" ++ [CR; LF] ++ js " " ++ [CR] ++ js "e::")
  = [[js "a::b"]; [js "c::d"]; [js "e::"]].
Proof.
  destruct (long_delimiter_never_splits (js "::") None true
              (js "a::b" ++ [LF] ++ js "c::d" ++ [CR; LF] ++ js " " ++ [CR]
               ++ js "e::")) as (_ & _ & H).
  { vm_compute. lia. }
  rewrite H; [reflexivity|by_decide].
Defined.

(** ** Quoted fields *)

(** Inside quotes, the doubled encoding of [s] and the closing quote append
    [s] to the field and leave the quotes, provided the text does not go
    on with one more quote. *)
Lemma loop_quoted d c skip s rest :
  head rest <> Some QUOTE ->
  forall st, Tokenizer.inQuotes st = true ->
    Tokenizer.loop d c skip (doubleQuotes s ++ QUOTE :: rest) st
    = Tokenizer.loop d c skip rest
        {| Tokenizer.field := Tokenizer.field st ++ s;
           Tokenizer.row := Tokenizer.row st;
           Tokenizer.inQuotes := false;
           Tokenizer.lines := Tokenizer.lines st |}.
Proof.
  intros Hrest. induction s as [|c0 s IH]; intros st Hq.
  - cbn [doubleQuotes flat_map app Tokenizer.loop].
    unfold Tokenizer.commentStart. rewrite Hq. cbn [negb andb].
    chr_consts.
    assert (Hst : Tokenizer.toggle st
                  = {| Tokenizer.field := Tokenizer.field st ++ [];
                       Tokenizer.row := Tokenizer.row st;
                       Tokenizer.inQuotes := false;
                       Tokenizer.lines := Tokenizer.lines st |}).
    { unfold Tokenizer.toggle. by rewrite app_nil_r, Hq. }
    destruct rest as [|n rest']; [by rewrite Hst|].
    replace (chr_eqb n QUOTE) with false; [by rewrite Hst|].
    symmetry. apply chr_eqb_neq. intros ->. by apply Hrest.
  - cbn [doubleQuotes flat_map].
    destruct (chr_eqb c0 QUOTE) eqn:E.
    + apply chr_eqb_eq in E as ->.
      cbn [app Tokenizer.loop]. unfold Tokenizer.commentStart.
      rewrite Hq. cbn [negb andb]. chr_consts.
      fold (doubleQuotes s). rewrite IH by done.
      cbn. by rewrite <- app_assoc.
    + cbn [app Tokenizer.loop]. unfold Tokenizer.commentStart.
      rewrite Hq, E. cbn [negb andb].
      fold (doubleQuotes s). rewrite IH by done.
      cbn. by rewrite <- app_assoc.
Qed.

(** A quoted field met outside quotes, where its opening quote does not
    start a comment. *)
Lemma loop_quoteField d c skip s rest st :
  Tokenizer.inQuotes st = false ->
  Tokenizer.commentStart c st QUOTE = false ->
  head rest <> Some QUOTE ->
  Tokenizer.loop d c skip (quoteField s ++ rest) st
  = Tokenizer.loop d c skip rest
      {| Tokenizer.field := Tokenizer.field st ++ s;
         Tokenizer.row := Tokenizer.row st;
         Tokenizer.inQuotes := false;
         Tokenizer.lines := Tokenizer.lines st |}.
Proof.
  intros Hq Hcs Hrest. unfold quoteField.
  rewrite <- app_comm_cons, <- app_assoc. cbn [app Tokenizer.loop].
  rewrite Hcs, Hq. chr_consts. cbn [andb].
  assert (Hgo : Tokenizer.loop d c skip (doubleQuotes s ++ QUOTE :: rest)
                  (Tokenizer.toggle st)
                = Tokenizer.loop d c skip rest
                    {| Tokenizer.field := Tokenizer.field st ++ s;
                       Tokenizer.row := Tokenizer.row st;
                       Tokenizer.inQuotes := false;
                       Tokenizer.lines := Tokenizer.lines st |}).
  { rewrite loop_quoted; [done|done|]. cbn. by rewrite Hq. }
  destruct (doubleQuotes s ++ QUOTE :: rest) as [|n r] eqn:E; [|done].
  by destruct (doubleQuotes s).
Qed.

Lemma commentStart_quote c st :
  c <> Some [QUOTE] -> Tokenizer.commentStart c st QUOTE = false.
Proof.
  intros Hc. unfold Tokenizer.commentStart, Tokenizer.isComment.
  destruct c as [p|]; [|by rewrite andb_false_r].
  replace (str_eqb p [QUOTE]) with false; [by rewrite !andb_false_r|].
  symmetry. apply str_eqb_neq. congruence.
Qed.

Lemma parseRows_quoteField d c skip s :
  c <> Some [QUOTE] ->
  Tokenizer.parseRows d c skip (quoteField s)
  = if is_empty s || (skip && is_empty (trim s)) then [] else [[s]].
Proof.
  intros Hc. unfold Tokenizer.parseRows.
  rewrite <- (app_nil_r (quoteField s)).
  rewrite loop_quoteField; [|done|by apply commentStart_quote|done].
  cbn [Tokenizer.loop]. rewrite finish_cases. cbn.
  destruct (is_empty s); [done|]. cbn. rewrite andb_true_r.
  by destruct (skip && is_empty (trim s)).
Qed.

(** A line free of quotes and line breaks, none of whose characters is the
    delimiter, read outside quotes with no comment prefix: it is appended
    to the current field. *)
Lemma loop_unsplit_line d skip line rest :
  QUOTE ∉ line -> LF ∉ line -> CR ∉ line ->
  (forall ch, ch ∈ line -> d <> [ch]) ->
  forall st, Tokenizer.inQuotes st = false ->
    Tokenizer.loop d None skip (line ++ rest) st
    = Tokenizer.loop d None skip rest
        {| Tokenizer.field := Tokenizer.field st ++ line;
           Tokenizer.row := Tokenizer.row st;
           Tokenizer.inQuotes := false;
           Tokenizer.lines := Tokenizer.lines st |}.
Proof.
  induction line as [|ch line IH]; intros HQ HL HC Hd st Hq.
  - cbn [app]. f_equal. rewrite app_nil_r, <- Hq. by destruct st.
  - apply not_elem_of_cons in HQ as [HQ1 HQ2].
    apply not_elem_of_cons in HL as [HL1 HL2].
    apply not_elem_of_cons in HC as [HC1 HC2].
    cbn [app Tokenizer.loop].
    unfold Tokenizer.commentStart, Tokenizer.isComment.
    rewrite !andb_false_r, Hq.
    replace (chr_eqb ch QUOTE) with false
      by (symmetry; apply chr_eqb_neq; congruence).
    replace (chr_eqb ch LF) with false
      by (symmetry; apply chr_eqb_neq; congruence).
    replace (chr_eqb ch CR) with false
      by (symmetry; apply chr_eqb_neq; congruence).
    replace (str_eqb d [ch]) with false
      by (symmetry; apply str_eqb_neq, Hd; by left).
    cbn [negb andb orb].
    rewrite IH; [|done|done|done|intros ch' Hch'; apply Hd; by right|done].
    cbn. by rewrite <- app_assoc.
Qed.

(** A header line and, on the next line, the quoted encoding of [s]. *)
Lemma parseRows_header_quoted d skip h s :
  QUOTE ∉ h -> LF ∉ h -> CR ∉ h ->
  (forall ch, ch ∈ LF :: h -> d <> [ch]) ->
  skip && is_empty (trim h) = false ->
  is_empty s || (skip && is_empty (trim s)) = false ->
  Tokenizer.parseRows d None skip (h ++ LF :: quoteField s) = [[h]; [s]].
Proof.
  intros HQ HL HC Hd Hh Hs. unfold Tokenizer.parseRows.
  rewrite loop_unsplit_line;
    [|done|done|done|intros ch Hch; apply Hd; by right|done].
  cbn [Tokenizer.loop].
  unfold Tokenizer.commentStart, Tokenizer.isComment.
  rewrite !andb_false_r. chr_consts.
  replace (str_eqb d [LF]) with false
    by (symmetry; apply str_eqb_neq, Hd; by left).
  cbn [Tokenizer.inQuotes negb andb orb]. rewrite match_list_same.
  rewrite <- (app_nil_r (quoteField s)).
  rewrite loop_quoteField; [|done|by apply commentStart_quote|done].
  cbn [Tokenizer.loop]. rewrite finish_cases.
  cbn [Tokenizer.pushRow Tokenizer.pushField Tokenizer.row Tokenizer.field
       Tokenizer.lines Tokenizer.init app lastRow is_empty negb orb andb].
  unfold Tokenizer.blankRow. rewrite Hh.
  apply orb_false_iff in Hs as [Hs1 Hs2].
  rewrite Hs1. cbn [negb andb app]. rewrite andb_true_r, Hs2. done.
Qed.

(** C5 (as amended).  For every string [s], with any delimiter: where the
    tokenizer, outside quotes, meets the quoted encoding of [s] (its opening
    quote not being a comment prefix, and no further quote following the
    closing one), it appends exactly [s] to the current field and is
    outside quotes again: delimiters, line breaks and quotes of [s] are
    content.  The quoted encoding alone as a text gives the single row of
    the single field [s], unless [s] is empty, or [skipEmptyLines] is on
    and [s] trims to the empty string, when no row is emitted.  The value
    projected from that field is [s] as it is when [trimCells] is off, and
    [s] trimmed when it is on, as it is by default; with [inferTypes] on,
    the inference is applied to that string.  This holds where the first
    row is the header row, as it is by default (the quoted encoding on the
    line after a plain header cell [h]), and where the text has no header
    row (the quoted encoding as the whole text, its column named [c0]). *)
Theorem quoted_field_roundtrip s :
  (forall d c skip st rest,
     Tokenizer.inQuotes st = false ->
     Tokenizer.commentStart c st QUOTE = false ->
     head rest <> Some QUOTE ->
     Tokenizer.loop d c skip (quoteField s ++ rest) st
     = Tokenizer.loop d c skip rest
         {| Tokenizer.field := Tokenizer.field st ++ s;
            Tokenizer.row := Tokenizer.row st;
            Tokenizer.inQuotes := false;
            Tokenizer.lines := Tokenizer.lines st |})
  /\ (forall d c skip, c <> Some [QUOTE] ->
        Tokenizer.parseRows d c skip (quoteField s)
        = if is_empty s || (skip && is_empty (trim s)) then [] else [[s]])
  /\ (forall lower opts h,
        headers opts = None \/ headers opts = Some (HBool true) ->
        comment opts = None ->
        QUOTE ∉ h -> LF ∉ h -> CR ∉ h -> head h <> Some BOM ->
        (forall ch, ch ∈ LF :: h ->
           delimiterOf (h ++ LF :: quoteField s) opts <> [ch]) ->
        skipOf opts && is_empty (trim h) = false ->
        is_empty s || (skipOf opts && is_empty (trim s)) = false ->
        let v := VStr (if trimOf opts then trim s else s) in
        parseCSV lower (h ++ LF :: quoteField s) opts
        = [assign emptyRow (normalizeHeader lower (preserveOf opts) h)
             (if inferOf opts then convertToJsTypes v else v)])
  /\ (forall lower opts,
        comment opts <> Some [QUOTE] ->
        headers opts = Some (HBool false) ->
        is_empty s || (skipOf opts && is_empty (trim s)) = false ->
        let v := VStr (if trimOf opts then trim s else s) in
        parseCSV lower (quoteField s) opts
        = [assign emptyRow (js "c0")
             (if inferOf opts then convertToJsTypes v else v)]).
Proof.
  split; [intros; by apply loop_quoteField|].
  split; [intros; by apply parseRows_quoteField|].
  split.
  - intros lower opts h Hh Hc HQ HL HC Hbom Hd Hblank Hs v.
    unfold parseCSV, rowsOf.
    replace (stripBOM (h ++ LF :: quoteField s))
      with (h ++ LF :: quoteField s).
    2: { destruct h as [|c0 h']; [done|]. cbn [app stripBOM].
         destruct (chr_eqb c0 BOM) eqn:E; [|done].
         apply chr_eqb_eq in E as ->. by destruct Hbom. }
    rewrite Hc, parseRows_header_quoted by done.
    assert (Hhd : headersOf opts = HBool true).
    { unfold headersOf. by destruct Hh as [-> | ->]. }
    rewrite Hhd.
    cbn [resolveHeaders List.hd normalizeHeaders List.map].
    cbn [length widestRow fold_left Nat.ltb Nat.leb Nat.max widen Nat.sub
         seq List.map app drop projectRow lookup].
    unfold cellValue, keyAt. cbn [lookup from_option id].
    subst v. by destruct (inferOf opts).
  - intros lower opts Hc Hh Hs v.
    unfold parseCSV, rowsOf.
    replace (stripBOM (quoteField s)) with (quoteField s) by done.
    rewrite parseRows_quoteField, Hs by done.
    unfold headersOf. rewrite Hh.
    cbn [from_option id resolveHeaders List.hd imap].
    cbn [length widestRow fold_left Nat.ltb Nat.leb Nat.max widen Nat.sub
         seq List.map app drop projectRow lookup].
    unfold cellValue, keyAt. cbn [lookup from_option id].
    subst v. by destruct (inferOf opts).
Qed.

Lemma quoted_field_roundtrip_witness :
  let s := js " x,y" ++ [LF; QUOTE] ++ js "z " in
  Tokenizer.parseRows [COMMA] None true (quoteField s) = [[s]]
  /\ parseCSV asciiLower (js "H" ++ LF :: quoteField s) noOptions
     = [record [(js "h", VStr (js "x,y" ++ [LF; QUOTE] ++ js "z"))]].
Proof.
  intros s. split.
  - apply (proj1 (proj2 (quoted_field_roundtrip s)) [COMMA] None true).
    discriminate.
  - apply (proj1 (proj2 (proj2 (quoted_field_roundtrip s)))
             asciiLower noOptions (js "H"));
      try by_decide; try reflexivity; try discriminate.
    intros ch Hch. cand_cases Hch; by vm_compute.
Defined.

(** C5 (the claim as written fails).  Under the default options the value
    projected from the quoted encoding of [ a] (a space, then [a]) is [a]:
    cells are trimmed.  And the quoted encoding of a single space yields no
    field at all. *)
Lemma quoted_field_counterexample :
  parseCSV asciiLower (js "h" ++ [LF] ++ quoteField (js " a")) noOptions
  = [assign emptyRow (js "h") (VStr (js "a"))]
  /\ VStr (js "a") <> VStr (js " a")
  /\ Tokenizer.parseRows [COMMA] None true (quoteField (js " ")) = [].
Proof. split; [by vm_compute|]. split; [discriminate|reflexivity]. Qed.

(** ** The delimiter detector *)

Lemma splitOn_length d line : forall cur, 1 <= length (splitOn d cur line).
Proof.
  induction line as [|c l IH]; intros cur; simpl; [lia|].
  destruct (chr_eqb c d); simpl; [lia|apply IH].
Qed.

Lemma splitOn_nonempty d line cur : splitOn d cur line <> [].
Proof.
  assert (H := splitOn_length d line cur).
  destruct (splitOn d cur line); [simpl in H; lia|done].
Qed.

Lemma last_cons_nonempty {A} (x : A) l d0 :
  l <> [] -> List.last (x :: l) d0 = List.last l d0.
Proof. by destruct l. Qed.

Lemma removelast_cons_nonempty {A} (x : A) l :
  l <> [] -> removelast (x :: l) = x :: removelast l.
Proof. by destruct l. Qed.

Lemma splitLines_no_LF s :
  forall cur, LF ∉ cur -> Forall (fun l => LF ∉ l) (splitLines cur s).
Proof.
  induction s as [s IH] using text_len_ind. intros cur Hcur.
  destruct s as [|c s']; [by repeat constructor|].
  cbn [splitLines].
  destruct (chr_eqb c LF) eqn:E.
  - constructor; [done|]. apply IH; [simpl; lia|]. by apply not_elem_of_nil.
  - assert (Hc : LF ∉ cur ++ [c]).
    { apply chr_eqb_neq in E. rewrite elem_of_app, list_elem_of_singleton.
      intros [?|?]; [done|by apply E]. }
    destruct s' as [|n s'']; [by apply IH; [simpl; lia|]|].
    destruct (chr_eqb c CR && chr_eqb n LF).
    + constructor; [done|]. apply IH; [simpl; lia|]. by apply not_elem_of_nil.
    + apply IH; [simpl; lia|done].
Qed.

Lemma detect_empty_sample s : sample s = [] -> detectDelimiter s = [COMMA].
Proof. unfold detectDelimiter. by intros ->. Qed.

Lemma splitLines_no_CR s :
  forall cur, CR ∉ s -> splitLines cur s = splitOn LF cur s.
Proof.
  induction s as [|c s IH]; intros cur Hs; [done|].
  apply not_elem_of_cons in Hs as [Hc Hs].
  cbn [splitLines splitOn].
  destruct (chr_eqb c LF); [by rewrite IH|].
  replace (chr_eqb c CR) with false
    by (symmetry; apply chr_eqb_neq; congruence).
  cbn [andb]. rewrite match_list_same. by apply IH.
Qed.

Lemma dropLastCR_CR l : dropLastCR (l ++ [CR]) = l.
Proof.
  unfold dropLastCR. rewrite rev_app_distr. simpl. chr_consts.
  apply rev_involutive.
Qed.

Lemma dropLastCR_other l c : c <> CR -> dropLastCR (l ++ [c]) = l ++ [c].
Proof.
  intros Hc. unfold dropLastCR. rewrite rev_app_distr. simpl.
  by replace (chr_eqb c CR) with false by (symmetry; by apply chr_eqb_neq).
Qed.

(** The pieces of [split(/\r?\n/)] are those between the line feeds, less
    the carriage return right before a line feed.  The piece being read
    never ends with a carriage return when a line feed comes next: such a
    pair is consumed at once. *)
Lemma splitLines_pieces s :
  forall cur, (head s = Some LF -> dropLastCR cur = cur) ->
    splitLines cur s
    = List.map dropLastCR (removelast (splitOn LF cur s))
      ++ [List.last (splitOn LF cur s) []].
Proof.
  induction s as [s IH] using text_len_ind. intros cur Hcur.
  destruct s as [|c s']; [done|].
  cbn [splitLines splitOn].
  destruct (chr_eqb c LF) eqn:E.
  - apply chr_eqb_eq in E as ->.
    rewrite removelast_cons_nonempty, last_cons_nonempty
      by apply splitOn_nonempty.
    cbn [List.map app]. rewrite Hcur by done. f_equal.
    apply IH; [simpl; lia|done].
  - destruct s' as [|n s'']; [done|].
    destruct (chr_eqb c CR && chr_eqb n LF) eqn:E2.
    + apply andb_true_iff in E2 as [Ec En].
      apply chr_eqb_eq in Ec as ->. apply chr_eqb_eq in En as ->.
      cbn [splitOn]. chr_consts. cbv iota.
      rewrite removelast_cons_nonempty, last_cons_nonempty
        by apply splitOn_nonempty.
      cbn [List.map app]. rewrite dropLastCR_CR. f_equal.
      apply IH; [simpl; lia|done].
    + apply IH; [simpl; lia|]. cbn [head]. intros [= ->].
      apply dropLastCR_other. intros ->. by vm_compute in E2.
Qed.

(** A text without a line feed is one piece, carriage returns or not. *)
Lemma splitLines_one s : forall cur, LF ∉ s -> splitLines cur s = [cur ++ s].
Proof.
  induction s as [|c s IH]; intros cur Hs; [by rewrite app_nil_r|].
  apply not_elem_of_cons in Hs as [Hc Hs].
  cbn [splitLines].
  replace (chr_eqb c LF) with false
    by (symmetry; apply chr_eqb_neq; congruence).
  assert (Hgo : splitLines (cur ++ [c]) s = [cur ++ c :: s]).
  { rewrite IH by done. by rewrite <- app_assoc. }
  destruct s as [|n s']; [done|].
  apply not_elem_of_cons in Hs as [Hn _].
  replace (chr_eqb n LF) with false
    by (symmetry; apply chr_eqb_neq; congruence).
  by rewrite andb_false_r.
Qed.

(** C3 (as amended).  The sample is made of the pieces of the text between
    line feeds, a carriage return right before a line feed going with it:
    the text is cut at its line feeds and a piece ended by a line feed
    loses the carriage return it ends with.  A carriage return alone ends
    no line: a text without line feed is one piece, and a text without
    carriage returns is split at its line feeds.  Only the first five
    pieces are looked at, and the empty ones among them are dropped.  So
    the sample has at most five lines, none empty and none holding a line
    feed.  For every text whose sample is empty the detector returns the
    comma. *)
Theorem detector_sample s :
  sample s
  = List.filter (fun l => negb (is_empty l)) (take 5 (linePieces s))
  /\ (LF ∉ s -> sample s = if is_empty s then [] else [s])
  /\ (CR ∉ s -> splitLines [] s = splitOn LF [] s)
  /\ length (sample s) <= 5
  /\ Forall (fun l => l <> [] /\ LF ∉ l) (sample s)
  /\ (sample s = [] -> detectDelimiter s = [COMMA]).
Proof.
  split; [|split; [|split; [apply splitLines_no_CR|split; [|split]]]].
  - unfold sample, linePieces. by rewrite splitLines_pieces.
  - intros Hs. unfold sample. rewrite splitLines_one by done.
    by destruct s.
  - unfold sample.
    etransitivity; [apply List.filter_length_le|].
    rewrite length_take. lia.
  - unfold sample. apply Forall_forall. intros l Hl.
    apply list_elem_of_In, List.filter_In in Hl as [Hin Hne].
    split; [by destruct l|].
    apply list_elem_of_In in Hin.
    assert (Hall := splitLines_no_LF s [] ltac:(apply not_elem_of_nil)).
    rewrite Forall_forall in Hall. apply Hall.
    eapply subseteq_take, Hin.
  - apply detect_empty_sample.
Qed.

Lemma detector_sample_witness :
  sample (js "a" ++ [CR] ++ js "b;c") = [js "a" ++ [CR] ++ js "b;c"]
  /\ sample (js "a" ++ [CR; LF; LF] ++ js "b" ++ [CR])
     = [js "a"; js "b" ++ [CR]]
  /\ detectDelimiter ([LF; LF] ++ [CR; LF]) = [COMMA].
Proof.
  split; [|split].
  - apply (proj1 (proj2 (detector_sample (js "a" ++ [CR] ++ js "b;c")))).
    by_decide.
  - by rewrite (proj1 (detector_sample
                         (js "a" ++ [CR; LF; LF] ++ js "b" ++ [CR]))).
  - apply (proj2 (proj2 (proj2 (proj2 (proj2
             (detector_sample ([LF; LF] ++ [CR; LF]))))))).
    reflexivity.
Defined.

(** C3 (the claim as written fails).  Behind five empty lines the line
    [a;b] is among the first five non-empty lines of the text, but not in
    the sample, which is empty; and a carriage return alone does not part
    the lines [a] and [b]. *)
Lemma detector_sample_counterexample :
  let t1 := [LF; LF; LF; LF; LF] ++ js "a;b" in
  let t2 := js "a" ++ [CR] ++ js "b" in
  sample t1 = [] /\ specSample t1 = [js "a;b"]
  /\ detectDelimiter t1 = [COMMA]
  /\ sample t2 = [js "a" ++ [CR] ++ js "b"]
  /\ specSample t2 = [js "a"; js "b"]
  /\ sample t1 <> specSample t1 /\ sample t2 <> specSample t2.
Proof. vm_compute. repeat split; discriminate. Qed.

(** *** The averages *)

Lemma fold_add_ge cols :
  forall a, Forall (fun n => 1 <= n) cols ->
    a + length cols <= fold_left Nat.add cols a.
Proof.
  induction cols as [|n cols IH]; intros a Hall; simpl; [lia|].
  inversion Hall as [|? ? Hn Hrest]; subst.
  specialize (IH (a + n) Hrest). lia.
Qed.

Lemma sum_columns_ge smp d : length smp <= sum (columns smp d).
Proof.
  unfold sum.
  assert (H := fold_add_ge (columns smp d) 0).
  unfold columns in *. rewrite length_map in H. apply H.
  apply Forall_forall. intros n Hn.
  apply list_elem_of_In, in_map_iff in Hn as (line & <- & _).
  apply splitOn_length.
Qed.

Lemma average_columns smp d :
  smp <> [] -> average (columns smp d) = Num (avgQ smp d).
Proof.
  intros Hne. destruct smp as [|l smp]; [done|].
  unfold average, avgQ. cbn [columns List.map].
  by rewrite length_cons, length_map.
Qed.

Lemma avgQ_ge_1 smp d : smp <> [] -> (1 <= avgQ smp d)%Q.
Proof.
  intros Hne. unfold avgQ, Qle. cbn [Qnum Qden].
  assert (Hlen : length smp <> 0) by (by destruct smp).
  rewrite <- (positive_nat_Z (Pos.of_nat (length smp))), Nat2Pos.id by done.
  assert (H := sum_columns_ge smp d). lia.
Qed.

Lemma detectStep_keep smp best m d :
  smp <> [] -> (avgQ smp d <= m)%Q ->
  detectStep smp (best, Num m) d = (best, Num m).
Proof.
  intros Hne Hle. unfold detectStep. rewrite average_columns by done.
  cbn [snd num_gt].
  by replace (Qle_bool (avgQ smp d) m) with true
    by (symmetry; by apply Qle_bool_iff).
Qed.

Lemma detectStep_replace smp best m d :
  smp <> [] -> (m < avgQ smp d)%Q ->
  detectStep smp (best, Num m) d = ([d], Num (avgQ smp d)).
Proof.
  intros Hne Hlt. unfold detectStep. rewrite average_columns by done.
  cbn [snd num_gt].
  destruct (Qle_bool (avgQ smp d) m) eqn:E; [|done].
  apply Qle_bool_iff in E. by apply Qlt_not_le in Hlt.
Qed.

Lemma detect_fold_keep smp cs :
  smp <> [] ->
  forall best m,
    (forall c, c ∈ cs -> (avgQ smp c <= m)%Q) ->
    fold_left (detectStep smp) cs (best, Num m) = (best, Num m).
Proof.
  intros Hne. induction cs as [|c cs IH]; intros best m Hall; [done|].
  cbn [fold_left]. rewrite detectStep_keep; [|done|apply Hall; by left].
  apply IH. intros c' Hc'. apply Hall. by right.
Qed.

Lemma detect_fold_pick smp pre c post :
  smp <> [] ->
  (forall x, x ∈ pre -> (avgQ smp x < avgQ smp c)%Q) ->
  (forall x, x ∈ post -> (avgQ smp x <= avgQ smp c)%Q) ->
  forall best m, (m < avgQ smp c)%Q ->
    fold_left (detectStep smp) (pre ++ c :: post) (best, Num m)
    = ([c], Num (avgQ smp c)).
Proof.
  intros Hne Hpre Hpost.
  induction pre as [|x pre IH]; intros best m Hm.
  - cbn [app fold_left]. rewrite detectStep_replace by done.
    by apply detect_fold_keep.
  - cbn [app fold_left].
    assert (Hx : (avgQ smp x < avgQ smp c)%Q) by (apply Hpre; by left).
    assert (IH' := IH ltac:(intros y Hy; apply Hpre; by right)).
    destruct (Qlt_le_dec m (avgQ smp x)) as [Hlt|Hle].
    + rewrite detectStep_replace by done. by apply IH'.
    + rewrite detectStep_keep by done. by apply IH'.
Qed.

(** C4.  Over a non-empty sample: a candidate whose average column count is
    strictly greater than that of every other candidate is returned; when
    no candidate's average is above the baseline 1 of the initial best, the
    comma, first in declaration order, is returned; and in general the
    detector returns the earliest candidate among those of the greatest
    average above 1. *)
Theorem detector_picks_best s :
  sample s <> [] ->
  (forall c, c ∈ candidates ->
     (forall c', c' ∈ candidates -> c' <> c ->
        (avgQ (sample s) c' < avgQ (sample s) c)%Q) ->
     detectDelimiter s = [c])
  /\ ((forall c, c ∈ candidates -> ~ (1 < avgQ (sample s) c)%Q) ->
      detectDelimiter s = [COMMA])
  /\ (forall pre c post, candidates = pre ++ c :: post ->
        (forall x, x ∈ pre -> (avgQ (sample s) x < avgQ (sample s) c)%Q) ->
        (forall x, x ∈ post -> (avgQ (sample s) x <= avgQ (sample s) c)%Q) ->
        (1 < avgQ (sample s) c)%Q ->
        detectDelimiter s = [c]).
Proof.
  intros Hne.
  assert (Hties : forall pre c post, candidates = pre ++ c :: post ->
        (forall x, x ∈ pre -> (avgQ (sample s) x < avgQ (sample s) c)%Q) ->
        (forall x, x ∈ post -> (avgQ (sample s) x <= avgQ (sample s) c)%Q) ->
        (1 < avgQ (sample s) c)%Q ->
        detectDelimiter s = [c]).
  { intros pre c post Hsplit Hpre Hpost Hone.
    unfold detectDelimiter. rewrite Hsplit.
    by rewrite detect_fold_pick. }
  split; [|split; [|done]].
  - intros c Hc Hwin.
    assert (Hother : forall c', c' ∈ candidates -> c' <> c ->
              (1 < avgQ (sample s) c)%Q).
    { intros c' Hc' Hneq. eapply Qle_lt_trans; [|by apply (Hwin c')].
      by apply avgQ_ge_1. }
    assert (Hlt : forall x, x ∈ candidates -> x <> c ->
              (avgQ (sample s) x < avgQ (sample s) c)%Q) by done.
    assert (Hle : forall x, x ∈ candidates -> x <> c ->
              (avgQ (sample s) x <= avgQ (sample s) c)%Q).
    { intros x Hx Hxc. by apply Qlt_le_weak, Hwin. }
    unfold candidates in *.
    assert (Hin : forall x, In x [COMMA; SEMI; TAB; PIPE] ->
              x ∈ [COMMA; SEMI; TAB; PIPE])
      by (intros x; apply list_elem_of_In).
    repeat (apply elem_of_cons in Hc as [->|Hc]);
      [..|by apply elem_of_nil in Hc].
    + apply (Hties [] COMMA [SEMI; TAB; PIPE]); [done| | |].
      * intros x Hx. by apply elem_of_nil in Hx.
      * intros x Hx. cand_cases Hx; (apply Hle; [apply Hin; simpl; tauto|done]).
      * apply (Hother SEMI); [apply Hin; simpl; tauto|done].
    + apply (Hties [COMMA] SEMI [TAB; PIPE]); [done| | |].
      * intros x Hx. cand_cases Hx; (apply Hlt; [apply Hin; simpl; tauto|done]).
      * intros x Hx. cand_cases Hx; (apply Hle; [apply Hin; simpl; tauto|done]).
      * apply (Hother COMMA); [apply Hin; simpl; tauto|done].
    + apply (Hties [COMMA; SEMI] TAB [PIPE]); [done| | |].
      * intros x Hx. cand_cases Hx; (apply Hlt; [apply Hin; simpl; tauto|done]).
      * intros x Hx. cand_cases Hx; (apply Hle; [apply Hin; simpl; tauto|done]).
      * apply (Hother COMMA); [apply Hin; simpl; tauto|done].
    + apply (Hties [COMMA; SEMI; TAB] PIPE []); [done| | |].
      * intros x Hx. cand_cases Hx; (apply Hlt; [apply Hin; simpl; tauto|done]).
      * intros x Hx. by apply elem_of_nil in Hx.
      * apply (Hother COMMA); [apply Hin; simpl; tauto|done].
  - intros Hnone. unfold detectDelimiter.
    rewrite detect_fold_keep; [done|done|].
    intros c Hc. apply Qnot_lt_le. by apply Hnone.
Qed.

Lemma detector_picks_best_witness :
  detectDelimiter (js "a;b;c" ++ [LF] ++ js "1;2,3") = [SEMI].
Proof.
  apply (proj1 (detector_picks_best (js "a;b;c" ++ [LF] ++ js "1;2,3")
                  ltac:(discriminate)) SEMI).
  - apply list_elem_of_In. simpl. tauto.
  - intros c' Hc' Hne. unfold candidates in Hc'.
    cand_cases Hc'; try done; by vm_compute.
Defined.

(** ** Record projection *)

Lemma parseCSV_unfold lower input opts :
  parseCSV lower input opts
  = List.map (projectOf lower input opts)
      (drop (dataStartOf lower input opts) (rowsOf input opts)).
Proof.
  unfold parseCSV, projectOf, headerNamesOf, widthOf, namesOf, dataStartOf.
  destruct (rowsOf input opts) as [|r0 rest] eqn:E.
  - by rewrite drop_nil.
  - by destruct (resolveHeaders _ _ _ _).
Qed.

(** C1 (the code departs from the claim).  With [inferTypes] on, the cell
    of a row shorter than the header is [undefined] in the record, whatever
    [defval] is: the conditional [inferTypes ? convertToJsTypes(cell) : cell
    ?? defval] reaches [defval] only in its else branch.  On [a,b / 1] with
    [defval] a dash the record holds [undefined] under [b]; with
    [inferTypes] off it holds the dash. *)
Theorem infer_types_skips_defval :
  let text := js "a,b" ++ [LF] ++ js "1" in
  let dash := VStr (js "-") in
  let on := {| delimiter := None; headers := None;
               preserveHeaderCase := None; comment := None;
               skipEmptyLines := None; defval := dash;
               inferTypes := Some true; trimCells := None |} in
  let off := {| delimiter := None; headers := None;
                preserveHeaderCase := None; comment := None;
                skipEmptyLines := None; defval := dash;
                inferTypes := Some false; trimCells := None |} in
  parseCSV asciiLower text on
  = [assign (assign emptyRow (js "a") (VNum (js "1"))) (js "b") VUndefined]
  /\ parseCSV asciiLower text off
     = [assign (assign emptyRow (js "a") (VStr (js "1"))) (js "b") dash]
  /\ (forall trimC dv, cellValue trimC true dv None = VUndefined)
  /\ (forall trimC dv, cellValue trimC false dv None = dv).
Proof. repeat split; by vm_compute. Qed.

(** *** Assignments into a record *)

Lemma assign_plain o k v :
  k <> PROTO ->
  assign o k v
  = {| props := <[k := v]> (props o); prototype := prototype o |}.
Proof.
  intros Hk. unfold assign.
  replace (str_eqb k PROTO) with false; [done|].
  symmetry. by apply str_eqb_neq.
Qed.

Lemma assign_props_other o k v key :
  key <> k -> props (assign o k v) !! key = props o !! key.
Proof.
  intros Hne. unfold assign.
  destruct (_ && _); [by destruct v|].
  cbn. by rewrite lookup_insert_ne.
Qed.

Lemma assign_size_le o k v :
  size (props (assign o k v)) <= S (size (props o)).
Proof.
  unfold assign.
  destruct (_ && _); [destruct v; simpl; lia|].
  cbn. rewrite map_size_insert. destruct (props o !! k); cbn; lia.
Qed.

Section Fold.
Variable k : nat -> jsstring.
Variable v : nat -> value.

Let f (o : CsvRow) (c : nat) : CsvRow := assign o (k c) (v c).

Lemma fold_assign_other cs :
  forall o key, key ∉ k <$> cs ->
    props (fold_left f cs o) !! key = props o !! key.
Proof.
  induction cs as [|c cs IH]; intros o key Hkey; [done|].
  rewrite fmap_cons in Hkey. apply not_elem_of_cons in Hkey as [Hc Hcs].
  cbn [fold_left]. rewrite IH by done. subst f. cbn beta.
  by apply assign_props_other.
Qed.

Lemma fold_assign_size_le cs :
  forall o, size (props (fold_left f cs o)) <= size (props o) + length cs.
Proof.
  induction cs as [|c cs IH]; intros o; cbn [fold_left length]; [lia|].
  specialize (IH (f o c)).
  assert (H := assign_size_le o (k c) (v c)). subst f. cbn beta in *. lia.
Qed.

Lemma fold_assign_lookup cs :
  forall o c, NoDup (k <$> cs) -> c ∈ cs -> k c <> PROTO ->
    props (fold_left f cs o) !! k c = Some (v c).
Proof.
  induction cs as [|c0 cs IH]; intros o c Hnd Hc Hk.
  - by apply elem_of_nil in Hc.
  - rewrite fmap_cons in Hnd. apply NoDup_cons in Hnd as [Hfresh Hnd].
    cbn [fold_left].
    destruct (decide (k c ∈ k <$> cs)) as [Hin|Hout].
    + apply elem_of_cons in Hc as [->|Hc]; [done|]. by apply IH.
    + rewrite fold_assign_other by done. subst f. cbn beta.
      apply elem_of_cons in Hc as [->|Hc].
      * rewrite assign_plain by done. cbn. by rewrite lookup_insert_eq.
      * exfalso. apply Hout. by apply list_elem_of_fmap_2.
Qed.

Lemma fold_assign_size cs :
  forall o, NoDup (k <$> cs) -> PROTO ∉ k <$> cs ->
    (forall key, key ∈ k <$> cs -> props o !! key = None) ->
    size (props (fold_left f cs o)) = size (props o) + length cs.
Proof.
  induction cs as [|c cs IH]; intros o Hnd Hp Hfresh;
    cbn [fold_left length]; [lia|].
  rewrite fmap_cons in Hnd, Hp, Hfresh.
  apply NoDup_cons in Hnd as [Hc Hnd].
  apply not_elem_of_cons in Hp as [Hpc Hp].
  rewrite IH; [|done|done|].
  - subst f. cbn beta. rewrite assign_plain by done. cbn.
    rewrite map_size_insert_None; [lia|]. apply Hfresh. by left.
  - intros key Hkey. subst f. cbn beta.
    rewrite assign_props_other; [apply Hfresh; by right|].
    intros ->. by apply Hc.
Qed.
End Fold.

Lemma keyAt_seq (H : list jsstring) : keyAt H <$> seq 0 (length H) = H.
Proof.
  apply list_eq. intros i. rewrite list_lookup_fmap.
  destruct (decide (i < length H)) as [Hlt|Hge].
  - rewrite lookup_seq_lt by done. cbn.
    destruct (lookup_lt_is_Some_2 H i Hlt) as [key Hkey].
    unfold keyAt. by rewrite Hkey.
  - rewrite lookup_seq_ge by lia. cbn. symmetry.
    apply lookup_ge_None. lia.
Qed.

Lemma widen_length names W :
  length names <= W -> length (widen names W) = W.
Proof.
  intros Hle. unfold widen. rewrite length_app, length_map, length_seq. lia.
Qed.

Lemma widestRow_ge rows :
  forall r, r ∈ rows -> length r <= widestRow rows.
Proof.
  unfold widestRow.
  assert (Hmono : forall (rs : list (list jsstring)) w, w <= fold_left
            (fun w r => if w <? length r then length r else w) rs w).
  { induction rs as [|r rs IH]; intros w; cbn [fold_left]; [lia|].
    etransitivity; [|apply IH]. destruct (Nat.ltb_spec w (length r)); lia. }
  assert (Hgen : forall (rs : list (list jsstring)) w r, r ∈ rs -> length r <= fold_left
            (fun w r => if w <? length r then length r else w) rs w).
  { induction rs as [|r0 rs IH]; intros w r Hr.
    - by apply elem_of_nil in Hr.
    - cbn [fold_left]. apply elem_of_cons in Hr as [->|Hr]; [|by apply IH].
      etransitivity; [|apply Hmono].
      destruct (Nat.ltb_spec w (length r0)); lia. }
  intros r Hr. by apply Hgen.
Qed.

Lemma widestRow_attained rows :
  rows <> [] -> exists r, r ∈ rows /\ length r = widestRow rows.
Proof.
  unfold widestRow.
  assert (Hgen : forall (rs : list (list jsstring)) w,
    let m := fold_left
               (fun w r => if w <? length r then length r else w) rs w in
    m = w \/ exists r, r ∈ rs /\ length r = m).
  { induction rs as [|r0 rs IH]; intros w; cbn [fold_left]; [by left|].
    destruct (IH (if w <? length r0 then length r0 else w)) as [Heq|(r & Hr & Heq)].
    - cbn zeta. rewrite Heq. destruct (Nat.ltb_spec w (length r0)).
      + right. exists r0. split; [by left|done].
      + by left.
    - right. exists r. split; [by right|done]. }
  intros Hne. destruct rows as [|r0 rs]; [done|].
  destruct (Hgen (r0 :: rs) 0) as [Heq|H]; [|done].
  exists r0. split; [by left|].
  assert (H := widestRow_ge (r0 :: rs) r0 ltac:(by left)).
  unfold widestRow in H. lia.
Qed.

(** C2 (as amended).  Every output record is built by one assignment per
    position of the widened header, which has exactly
    [max(headerCount, widestRowWidth)] names, [widestRowWidth] being the
    greatest width among all tokenized rows.  A record therefore has at
    most that many keys, and exactly that many when the widened header
    names are pairwise distinct and none is [__proto__].  In that case, and
    with [inferTypes] off, a row narrower than the width carries the
    configured default value at its missing positions. *)
Theorem width_reconciliation lower input opts :
  let rows := rowsOf input opts in
  let W := Nat.max (length (namesOf lower input opts)) (widestRow rows) in
  let H := headerNamesOf lower input opts in
  (forall r, r ∈ rows -> length r <= widestRow rows)
  /\ (rows <> [] -> exists r, r ∈ rows /\ length r = widestRow rows)
  /\ length H = W
  /\ parseCSV lower input opts
     = List.map (projectOf lower input opts)
         (drop (dataStartOf lower input opts) rows)
  /\ forall r,
       let rec := projectOf lower input opts r in
       keyCount rec <= W
       /\ (NoDup H -> PROTO ∉ H ->
           keyCount rec = W
           /\ (inferOf opts = false ->
               forall c key, length r <= c -> H !! c = Some key ->
                 props rec !! key = Some (defvalOf opts))).
Proof.
  intros rows W H.
  assert (HlenH : length H = W).
  { apply widen_length. unfold widthOf. lia. }
  split; [apply widestRow_ge|]. split; [apply widestRow_attained|].
  split; [done|]. split; [apply parseCSV_unfold|].
  intros r rec. unfold keyCount.
  assert (Hrec : rec = fold_left
            (fun o c => assign o (keyAt H c)
               (cellValue (trimOf opts) (inferOf opts) (defvalOf opts)
                  (r !! c)))
            (seq 0 (length H)) emptyRow).
  { rewrite HlenH. done. }
  split.
  - rewrite Hrec.
    etransitivity; [apply fold_assign_size_le|].
    rewrite length_seq. cbn. rewrite map_size_empty. lia.
  - intros Hnd Hproto. split.
    + rewrite Hrec, fold_assign_size.
      * cbn. rewrite map_size_empty, length_seq. lia.
      * by rewrite keyAt_seq.
      * by rewrite keyAt_seq.
      * done.
    + intros Hinfer c key Hc Hkey.
      assert (Hlt : c < length H) by (apply lookup_lt_is_Some_1; eauto).
      assert (Hk : keyAt H c = key) by (unfold keyAt; by rewrite Hkey).
      rewrite Hrec, <- Hk, fold_assign_lookup.
      * rewrite Hinfer. unfold cellValue.
        by rewrite (proj2 (lookup_ge_None r c)) by lia.
      * by rewrite keyAt_seq.
      * apply list_elem_of_In, in_seq. lia.
      * rewrite Hk. intros ->. apply Hproto.
        by eapply list_elem_of_lookup_2.
Qed.

Lemma width_reconciliation_witness :
  let input := js "a,b,c" ++ [LF] ++ js "1,2" in
  props (projectOf asciiLower input noOptions [js "1"; js "2"]) !! js "c"
  = Some VNull.
Proof.
  intros input.
  destruct (width_reconciliation asciiLower input noOptions)
    as (_ & _ & _ & _ & Hrec).
  destruct (Hrec [js "1"; js "2"]) as [_ Hdistinct].
  destruct Hdistinct as [_ Hdef].
  - vm_compute. repeat constructor; intros Hin;
      repeat (apply elem_of_cons in Hin as [Hin|Hin]; [discriminate|]);
      by apply elem_of_nil in Hin.
  - vm_compute. intros Hin.
    repeat (apply elem_of_cons in Hin as [Hin|Hin]; [discriminate|]).
    by apply elem_of_nil in Hin.
  - apply (Hdef eq_refl 2 (js "c")); [vm_compute; lia|reflexivity].
Defined.

(** C2 (the claim as written fails).  With the header [a,a] the record of
    the row [1,2] has one key, not [max(2, 2)]: the second column
    overwrites the first. *)
Lemma width_reconciliation_counterexample :
  let input := js "a,a" ++ [LF] ++ js "1,2" in
  List.map keyCount (parseCSV asciiLower input noOptions) = [1]
  /\ Nat.max (length (namesOf asciiLower input noOptions))
       (widestRow (rowsOf input noOptions)) = 2.
Proof. split; by vm_compute. Qed.

(** ** Header resolution *)

Lemma dropWhile_head {A} (p : A -> bool) l c r :
  dropWhile p l = c :: r -> p c = false.
Proof.
  induction l as [|x l IH]; simpl; [done|].
  destruct (p x) eqn:E; [done|]. by intros [= <- <-].
Qed.

Lemma dropWhile_suffix {A} (p : A -> bool) l :
  exists l1, l = l1 ++ dropWhile p l.
Proof.
  induction l as [|x l [l1 IH]]; simpl; [by exists []|].
  destruct (p x); [|by exists []].
  exists (x :: l1). simpl. by f_equal.
Qed.

(** A trimmed string does not start with a white space character. *)
Lemma trim_head s c r : trim s = c :: r -> isWhite c = false.
Proof.
  unfold trim, trimEnd, trimStart. intros Heq.
  destruct (dropWhile_suffix isWhite (rev (dropWhile isWhite s)))
    as [l1 Hl1].
  apply (f_equal (@rev _)) in Hl1.
  rewrite rev_involutive, rev_app_distr, Heq in Hl1.
  simpl in Hl1. by apply dropWhile_head in Hl1.
Qed.

(** The removal of a leading byte order mark never applies behind [trim],
    which strips that character as white space. *)
Lemma dropLeadingBOM_trim h : dropLeadingBOM (trim h) = trim h.
Proof.
  unfold dropLeadingBOM. destruct (trim h) as [|c r] eqn:E; [done|].
  destruct (chr_eqb c BOM) eqn:Ec; [|done].
  apply chr_eqb_eq in Ec as ->. by apply trim_head in E.
Qed.

Lemma normalizeHeader_trim lower preserve h :
  normalizeHeader lower preserve h
  = if preserve then trim h else lower (trim h).
Proof. unfold normalizeHeader. by rewrite dropLeadingBOM_trim. Qed.

Lemma imap_synth (r : list jsstring) :
  imap (fun i _ => synth i) r = List.map synth (seq 0 (length r)).
Proof. by rewrite imap_seq_0. Qed.

(** C8.  Over a non-empty tokenized row sequence: with an explicit list of
    names, the header names are the given names, each trimmed, and
    lower-cased unless [preserveHeaderCase], and the records are those of
    the rows from index 1 on (row 0 is skipped); with [headers] false, the
    names are [c0 .. c(k-1)] for the [k] cells of the first row, each the
    letter [c] followed by the decimal writing of its index, and every
    row, the first included, gives a record; with [headers] true or absent,
    the names are the cells of row 0, normalised the same way, and the
    records are those of the rows from index 1 on. *)
Theorem header_resolution lower input opts r0 rest :
  rowsOf input opts = r0 :: rest ->
  let norm h := if preserveOf opts then trim h else lower (trim h) in
  let cname i :=
    99%N :: js (DecimalString.NilZero.string_of_uint (Nat.to_uint i)) in
  (forall names, headers opts = Some (HNames names) ->
     namesOf lower input opts = List.map norm names
     /\ dataStartOf lower input opts = 1
     /\ parseCSV lower input opts
        = List.map (projectOf lower input opts) rest)
  /\ (headers opts = Some (HBool false) ->
      namesOf lower input opts = List.map cname (seq 0 (length r0))
      /\ dataStartOf lower input opts = 0
      /\ parseCSV lower input opts
         = List.map (projectOf lower input opts) (r0 :: rest))
  /\ (headers opts = Some (HBool true) \/ headers opts = None ->
      namesOf lower input opts = List.map norm r0
      /\ dataStartOf lower input opts = 1
      /\ parseCSV lower input opts
         = List.map (projectOf lower input opts) rest).
Proof.
  intros Hrows norm cname.
  assert (Hnorm : forall hs,
            normalizeHeaders lower hs (preserveOf opts) = List.map norm hs).
  { intros hs. unfold normalizeHeaders. apply map_ext. intros h.
    apply normalizeHeader_trim. }
  split; [|split].
  - intros names Hh. rewrite parseCSV_unfold.
    unfold namesOf, dataStartOf, headersOf. rewrite Hrows, Hh.
    cbn [from_option id resolveHeaders fst snd drop]. by rewrite Hnorm.
  - intros Hh. rewrite parseCSV_unfold.
    unfold namesOf, dataStartOf, headersOf. rewrite Hrows, Hh.
    cbn [from_option id resolveHeaders fst snd List.hd drop].
    by rewrite imap_synth.
  - intros Hh. rewrite parseCSV_unfold.
    unfold namesOf, dataStartOf, headersOf. rewrite Hrows.
    destruct Hh as [-> | ->];
      cbn [from_option id resolveHeaders fst snd List.hd drop]; by rewrite Hnorm.
Qed.

Lemma header_resolution_witness :
  let input := js "a,b" ++ [LF] ++ js "1,2" in
  let wide := js "A,b,c,d,e,f,g,h,i,j,k" in
  let withHeaders h :=
    {| delimiter := None; headers := h;
       preserveHeaderCase := None; comment := None;
       skipEmptyLines := None; defval := VUndefined;
       inferTypes := None; trimCells := None |} in
  let explicit := withHeaders (Some (HNames [js "X"; js " Y "])) in
  let off := withHeaders (Some (HBool false)) in
  (namesOf asciiLower input explicit = [js "x"; js "y"]
   /\ parseCSV asciiLower input explicit
      = [record [(js "x", VStr (js "1")); (js "y", VStr (js "2"))]])
  /\ (namesOf asciiLower input off = [js "c0"; js "c1"]
      /\ parseCSV asciiLower input off
         = [record [(js "c0", VStr (js "a")); (js "c1", VStr (js "b"))];
            record [(js "c0", VStr (js "1")); (js "c1", VStr (js "2"))]])
  /\ namesOf asciiLower wide off
     = [js "c0"; js "c1"; js "c2"; js "c3"; js "c4"; js "c5"; js "c6";
        js "c7"; js "c8"; js "c9"; js "c10"]
  /\ (namesOf asciiLower wide noOptions
      = [js "a"; js "b"; js "c"; js "d"; js "e"; js "f"; js "g"; js "h";
         js "i"; js "j"; js "k"]
      /\ parseCSV asciiLower input noOptions
         = [record [(js "a", VStr (js "1")); (js "b", VStr (js "2"))]]).
Proof.
  intros input wide withHeaders explicit off.
  destruct (header_resolution asciiLower input explicit
              [js "a"; js "b"] [[js "1"; js "2"]] eq_refl)
    as [Hnames _].
  destruct (Hnames [js "X"; js " Y "] eq_refl) as (Hn & _ & Hp).
  destruct (header_resolution asciiLower input off
              [js "a"; js "b"] [[js "1"; js "2"]] eq_refl)
    as (_ & Hoff & _).
  destruct (Hoff eq_refl) as (Hn0 & _ & Hp0).
  destruct (header_resolution asciiLower wide off
              [js "A"; js "b"; js "c"; js "d"; js "e"; js "f"; js "g";
               js "h"; js "i"; js "j"; js "k"] [] eq_refl)
    as (_ & Hwide & _).
  destruct (Hwide eq_refl) as (Hn1 & _ & _).
  destruct (header_resolution asciiLower wide noOptions
              [js "A"; js "b"; js "c"; js "d"; js "e"; js "f"; js "g";
               js "h"; js "i"; js "j"; js "k"] [] eq_refl)
    as (_ & _ & Hdef).
  destruct (Hdef (or_intror eq_refl)) as (Hn2 & _ & _).
  destruct (header_resolution asciiLower input noOptions
              [js "a"; js "b"] [[js "1"; js "2"]] eq_refl)
    as (_ & _ & Hdef').
  destruct (Hdef' (or_intror eq_refl)) as (_ & _ & Hp2).
  split; [split; [by rewrite Hn|rewrite Hp; by vm_compute]|].
  split; [split; [by rewrite Hn0|rewrite Hp0; by vm_compute]|].
  split; [by rewrite Hn1|].
  split; [by rewrite Hn2|rewrite Hp2; by vm_compute].
Defined.

(** ** Line endings *)

Lemma crlf_LF s : crlf (LF :: s) = CR :: LF :: crlf s.
Proof. done. Qed.

Lemma crlf_other c s : c <> LF -> crlf (c :: s) = c :: crlf s.
Proof.
  intros Hc. unfold crlf. cbn [flat_map].
  by replace (chr_eqb c LF) with false by (symmetry; by apply chr_eqb_neq).
Qed.

Lemma dropWhile_nil {A} (p : A -> bool) l :
  dropWhile p l = [] <-> forallb p l = true.
Proof.
  induction l as [|x l IH]; simpl; [done|].
  destruct (p x); simpl; [done|]. split; discriminate.
Qed.

Lemma forallb_rev {A} (p : A -> bool) l :
  forallb p (rev l) = forallb p l.
Proof.
  induction l as [|x l IH]; [done|].
  simpl. rewrite forallb_app, IH. simpl. rewrite andb_true_r.
  apply andb_comm.
Qed.

Lemma trim_empty s : is_empty (trim s) = forallb isWhite s.
Proof.
  apply eq_true_iff_eq. rewrite is_empty_true.
  unfold trim, trimEnd, trimStart.
  split.
  - intros H. apply (f_equal (@rev _)) in H.
    rewrite rev_involutive in H. simpl in H.
    apply dropWhile_nil in H. rewrite forallb_rev in H.
    destruct (dropWhile isWhite s) as [|c r] eqn:E.
    + by apply dropWhile_nil.
    + apply dropWhile_head in E. simpl in H. by rewrite E in H.
  - intros H. apply dropWhile_nil in H. by rewrite H.
Qed.

Lemma afterLF_subseteq r r' x : afterLF r = Some r' -> x ∈ r' -> x ∈ r.
Proof.
  revert r'. induction r as [|c r IH]; intros r'; simpl; [done|].
  destruct (chr_eqb c LF).
  - intros [= ->] Hx. by right.
  - intros H Hx. right. by eapply IH.
Qed.

Lemma is_empty_map {A B} (f : A -> B) (l : list A) :
  is_empty (List.map f l) = is_empty l.
Proof. by destruct l. Qed.

Lemma detectDelimiter_candidate s :
  exists c, c ∈ candidates /\ detectDelimiter s = [c].
Proof.
  unfold detectDelimiter, candidates. cbn [fold_left]. unfold detectStep.
  repeat match goal with
  | |- context [if ?b then _ else _] => destruct b; cbn [fst snd]
  end;
  eexists; (split; [|reflexivity]); apply list_elem_of_In; simpl; tauto.
Qed.

(** *** The CRLF form puts carriage returns before line feeds *)

Lemma lineEnding_insCR p t t' :
  insCR false t t' -> insCR p (LF :: t) (lineEnding p ++ t').
Proof.
  intros H. destruct p; cbn [lineEnding app].
  - by apply insCR_copy.
  - by apply insCR_line.
Qed.

Lemma copyLine_insCR k r :
  forall q,
    (forall r', length r' < length r -> insCR false r' (k r')) ->
    insCR q r (copyLine k q r).
Proof.
  induction r as [|c r IH]; intros q Hk; cbn [copyLine].
  - apply insCR_nil.
  - destruct (chr_eqb c LF) eqn:E.
    + apply chr_eqb_eq in E as ->. apply lineEnding_insCR, Hk. simpl. lia.
    + apply insCR_copy, IH. intros r' Hr'. apply Hk. simpl. lia.
Qed.

Lemma toCRLF_insCR d c skip text :
  forall st p, insCR p text (toCRLF d c skip text st p).
Proof.
  induction text as [text IH] using text_len_ind. intros st p.
  destruct text as [|ch rest]; [apply insCR_nil|].
  cbn [toCRLF].
  destruct (Tokenizer.commentStart c st ch).
  { destruct (chr_eqb ch LF) eqn:E.
    - apply chr_eqb_eq in E as ->. apply lineEnding_insCR, IH. simpl. lia.
    - apply insCR_copy, copyLine_insCR. intros r' Hr'. apply IH. simpl. lia. }
  destruct (chr_eqb ch QUOTE) eqn:EQ.
  { apply chr_eqb_eq in EQ as ->.
    destruct rest as [|next rest']; [apply insCR_copy, insCR_nil|].
    destruct (Tokenizer.inQuotes st && chr_eqb next QUOTE) eqn:E.
    - apply andb_true_iff in E as [_ E]. apply chr_eqb_eq in E as ->.
      apply insCR_copy, insCR_copy, IH. simpl. lia.
    - apply insCR_copy, IH. simpl. lia. }
  destruct (negb (Tokenizer.inQuotes st) && str_eqb d [ch]).
  { apply insCR_copy, IH. simpl. lia. }
  destruct (negb (Tokenizer.inQuotes st) && (chr_eqb ch LF || chr_eqb ch CR))
    eqn:ENL.
  2: { apply insCR_copy, IH. simpl. lia. }
  cbv zeta.
  destruct (chr_eqb ch LF) eqn:ELF.
  { apply chr_eqb_eq in ELF as ->. apply lineEnding_insCR, IH. simpl. lia. }
  assert (ch = CR) as ->.
  { apply andb_true_iff in ENL as [_ E]. by apply chr_eqb_eq in E. }
  destruct rest as [|next rest']; [apply insCR_copy, insCR_nil|].
  destruct (chr_eqb next LF) eqn:E.
  - apply chr_eqb_eq in E as ->.
    apply insCR_copy, insCR_copy, IH. simpl. lia.
  - apply insCR_copy, IH. simpl. lia.
Qed.

(** The first character of the copy is that of the text, or the carriage
    return put before its line feed. *)
Lemma insCR_head p n r t' :
  insCR p (n :: r) t' ->
  exists t'', t' = n :: t'' \/ (n = LF /\ t' = CR :: LF :: t'').
Proof.
  intros H. inversion H; subst; eexists; [by left|by right].
Qed.

Lemma splitLines_CR cur c s :
  splitLines cur (CR :: c :: s)
  = if chr_eqb c LF then cur :: splitLines [] s
    else splitLines (cur ++ [CR]) (c :: s).
Proof.
  change (splitLines cur (CR :: c :: s))
    with (if chr_eqb CR LF then cur :: splitLines [] (c :: s)
          else if chr_eqb CR CR && chr_eqb c LF then cur :: splitLines [] s
               else splitLines (cur ++ [CR]) (c :: s)).
  by chr_consts.
Qed.

(** [split(/\r?\n/)] gives the same pieces on both texts. *)
Lemma insCR_splitLines p t t' :
  insCR p t t' ->
  (forall cur, splitLines cur t' = splitLines cur t)
  /\ (p = true ->
      forall cur, splitLines cur (CR :: t') = splitLines cur (CR :: t)).
Proof.
  induction 1 as [p|p c t t' H [IH1 IH2]|t t' H [IH1 IH2]].
  - done.
  - assert (H1 : forall cur,
              splitLines cur (c :: t') = splitLines cur (c :: t)).
    { intros cur. destruct (chr_eqb c CR) eqn:ECR.
      - apply chr_eqb_eq in ECR as ->. by apply IH2.
      - cbn [splitLines]. rewrite ECR. cbn [andb]. rewrite !match_list_same.
        destruct (chr_eqb c LF); by rewrite IH1. }
    split; [done|]. intros _ cur. rewrite !splitLines_CR.
    destruct (chr_eqb c LF); [by rewrite IH1|apply H1].
  - split; [|done]. intros cur. cbn [splitLines]. chr_consts.
    cbn [andb]. by rewrite IH1.
Qed.

Lemma afterLF_copyLine k r :
  forall q, afterLF (copyLine k q r) = k <$> afterLF r.
Proof.
  induction r as [|c r IH]; intros q; cbn [copyLine afterLF]; [done|].
  destruct (chr_eqb c LF) eqn:E.
  - destruct q; cbn [lineEnding app afterLF]; by chr_consts.
  - cbn [afterLF]. rewrite E. apply IH.
Qed.

(** *** The loop on a text and on its CRLF form *)

Lemma isComment_other c ch :
  c <> Some [ch] -> Tokenizer.isComment c ch = false.
Proof.
  intros Hne. unfold Tokenizer.isComment. destruct c as [p|]; [|done].
  replace (str_eqb p [ch]) with false; [by rewrite andb_false_r|].
  symmetry. apply str_eqb_neq. congruence.
Qed.

(** A quote that is not the first of a doubled quote inside quotes. *)
Lemma loop_quote_toggle d c skip rest st :
  Tokenizer.commentStart c st QUOTE = false ->
  Tokenizer.inQuotes st
  && match rest with n :: _ => chr_eqb n QUOTE | [] => false end = false ->
  Tokenizer.loop d c skip (QUOTE :: rest) st
  = Tokenizer.loop d c skip rest (Tokenizer.toggle st).
Proof.
  intros Hcs Hn. cbn [Tokenizer.loop]. rewrite Hcs. chr_consts.
  destruct rest as [|n r]; [done|]. by rewrite Hn.
Qed.

(** A carriage return outside quotes that no line feed follows. *)
Lemma loop_lone_CR d c skip rest st :
  Tokenizer.commentStart c st CR = false -> str_eqb d [CR] = false ->
  Tokenizer.inQuotes st = false ->
  match rest with n :: _ => chr_eqb n LF | [] => false end = false ->
  Tokenizer.loop d c skip (CR :: rest) st
  = Tokenizer.loop d c skip rest
      (Tokenizer.pushRow skip (Tokenizer.pushField st)).
Proof.
  intros Hcs Hd Hq Hn. cbn [Tokenizer.loop]. rewrite Hcs, Hd, Hq.
  chr_consts. cbn [negb andb orb].
  destruct rest as [|n r]; [done|]. by rewrite Hn.
Qed.

(** A line feed outside quotes, and a carriage return with its line
    feed. *)
Lemma loop_LF d c skip rest st :
  Tokenizer.commentStart c st LF = false -> str_eqb d [LF] = false ->
  Tokenizer.inQuotes st = false ->
  Tokenizer.loop d c skip (LF :: rest) st
  = Tokenizer.loop d c skip rest
      (Tokenizer.pushRow skip (Tokenizer.pushField st)).
Proof.
  intros Hcs Hd Hq. cbn [Tokenizer.loop]. rewrite Hcs, Hd, Hq.
  chr_consts. cbn [negb andb orb]. apply match_list_same.
Qed.

Lemma loop_CRLF d c skip rest st :
  Tokenizer.commentStart c st CR = false -> str_eqb d [CR] = false ->
  Tokenizer.inQuotes st = false ->
  Tokenizer.loop d c skip (CR :: LF :: rest) st
  = Tokenizer.loop d c skip rest
      (Tokenizer.pushRow skip (Tokenizer.pushField st)).
Proof.
  intros Hcs Hd Hq. cbn [Tokenizer.loop]. rewrite Hcs, Hd, Hq.
  by chr_consts.
Qed.

Lemma loop_toCRLF d c skip :
  d <> [CR] -> c <> Some [CR] -> c <> Some [LF] ->
  forall text st p,
    Tokenizer.loop d c skip (toCRLF d c skip text st p) st
    = Tokenizer.loop d c skip text st.
Proof.
  intros Hd HcCR HcLF text.
  assert (HsCR : forall st, Tokenizer.commentStart c st CR = false).
  { intros st. unfold Tokenizer.commentStart.
    by rewrite isComment_other, andb_false_r. }
  assert (HsLF : forall st, Tokenizer.commentStart c st LF = false).
  { intros st. unfold Tokenizer.commentStart.
    by rewrite isComment_other, andb_false_r. }
  assert (HdCR : str_eqb d [CR] = false) by by apply str_eqb_neq.
  induction text as [text IH] using text_len_ind. intros st p.
  destruct text as [|ch rest]; [done|].
  cbn [toCRLF].
  destruct (Tokenizer.commentStart c st ch) eqn:ECS.
  { destruct (chr_eqb ch LF) eqn:ELF.
    { apply chr_eqb_eq in ELF as ->. by rewrite HsLF in ECS. }
    cbn [Tokenizer.loop]. rewrite ECS, ELF.
    rewrite !skipLine_afterLF, afterLF_copyLine.
    destruct (afterLF rest) as [r'|] eqn:E; [|done].
    cbn [fmap option_fmap option_map]. apply IH.
    apply afterLF_shorter in E. simpl. lia. }
  destruct (chr_eqb ch QUOTE) eqn:EQ.
  { apply chr_eqb_eq in EQ as ->.
    destruct rest as [|next rest']; [done|].
    destruct (Tokenizer.inQuotes st && chr_eqb next QUOTE) eqn:E.
    - cbn [Tokenizer.loop]. rewrite ECS. chr_consts.
      apply andb_true_iff in E as [Eq En]. rewrite Eq, En. cbn [andb].
      apply IH. simpl. lia.
    - destruct (insCR_head false next rest'
                  (toCRLF d c skip (next :: rest') (Tokenizer.toggle st) false)
                  (toCRLF_insCR d c skip _ _ _))
        as [t'' [Ht|[-> Ht]]].
      + rewrite !loop_quote_toggle; [|done|done|done|by rewrite Ht].
        apply IH. simpl. lia.
      + rewrite !loop_quote_toggle;
          [|done|done|done|rewrite Ht; by rewrite andb_false_r].
        apply IH. simpl. lia. }
  destruct (negb (Tokenizer.inQuotes st) && str_eqb d [ch]) eqn:ED.
  { cbn [Tokenizer.loop]. rewrite ECS, EQ, ED. apply IH. simpl. lia. }
  destruct (negb (Tokenizer.inQuotes st) && (chr_eqb ch LF || chr_eqb ch CR))
    eqn:ENL.
  2: { cbn [Tokenizer.loop]. rewrite ECS, EQ, ED, ENL. apply IH. simpl. lia. }
  cbv zeta.
  assert (Eq : Tokenizer.inQuotes st = false).
  { apply andb_true_iff in ENL as [E _]. by apply negb_true_iff in E. }
  assert (EdCh : str_eqb d [ch] = false) by (by rewrite Eq in ED).
  destruct (chr_eqb ch LF) eqn:ELF.
  { apply chr_eqb_eq in ELF as ->.
    destruct p; cbn [lineEnding app].
    - rewrite !loop_LF by done. apply IH. simpl. lia.
    - rewrite loop_CRLF, loop_LF by done. apply IH. simpl. lia. }
  assert (ch = CR) as ->.
  { apply andb_true_iff in ENL as [_ E]. by apply chr_eqb_eq in E. }
  destruct rest as [|next rest']; [done|].
  destruct (chr_eqb next LF) eqn:E.
  - apply chr_eqb_eq in E as ->. rewrite !loop_CRLF by done.
    apply IH. simpl. lia.
  - destruct (insCR_head true next rest'
                (toCRLF d c skip (next :: rest')
                   (Tokenizer.pushRow skip (Tokenizer.pushField st)) true)
                (toCRLF_insCR d c skip _ _ _))
      as [t'' [Ht|[-> Ht]]]; [|by vm_compute in E].
    rewrite !loop_lone_CR; [|done|done|done|done|done|done|done|by rewrite Ht].
    apply IH. simpl. lia.
Qed.

(** On a text without quotes and carriage returns, with no comment prefix,
    every line feed ends a row: the CRLF form is that of [crlf]. *)
Lemma toCRLF_plain d skip text :
  QUOTE ∉ text -> CR ∉ text -> d <> [LF] ->
  forall st, Tokenizer.inQuotes st = false ->
    toCRLF d None skip text st false = crlf text.
Proof.
  intros HQ HC Hd.
  induction text as [|ch rest IH]; intros st Hq; [done|].
  apply not_elem_of_cons in HQ as [HQ1 HQ2].
  apply not_elem_of_cons in HC as [HC1 HC2].
  cbn [toCRLF]. unfold Tokenizer.commentStart, Tokenizer.isComment.
  rewrite !andb_false_r, Hq.
  replace (chr_eqb ch QUOTE) with false
    by (symmetry; apply chr_eqb_neq; congruence).
  replace (chr_eqb ch CR) with false
    by (symmetry; apply chr_eqb_neq; congruence).
  cbn [negb andb orb].
  destruct (str_eqb d [ch]) eqn:ED.
  { apply str_eqb_eq in ED.
    rewrite crlf_other by congruence. f_equal. by apply IH. }
  destruct (chr_eqb ch LF) eqn:ELF.
  - apply chr_eqb_eq in ELF as ->. rewrite crlf_LF.
    cbn [lineEnding app]. do 2 f_equal. by apply IH.
  - apply chr_eqb_neq in ELF. rewrite crlf_other by done.
    f_equal. by apply IH.
Qed.

(** With no comment prefix, on a text without carriage returns, the line
    feeds that end rows are those outside quotes. *)
Lemma toCRLF_outside d skip :
  d <> [LF] ->
  forall text st,
    CR ∉ text ->
    toCRLF d None skip text st false
    = crlfOutside (Tokenizer.inQuotes st) text.
Proof.
  intros Hd text.
  induction text as [text IH] using text_len_ind. intros st HC.
  destruct text as [|ch rest]; [done|].
  apply not_elem_of_cons in HC as [HC1 HC2].
  assert (ECR : chr_eqb ch CR = false) by (apply chr_eqb_neq; congruence).
  cbn [toCRLF crlfOutside].
  unfold Tokenizer.commentStart, Tokenizer.isComment.
  rewrite !andb_false_r, ECR.
  destruct (chr_eqb ch QUOTE) eqn:EQ.
  { apply chr_eqb_eq in EQ as ->.
    destruct rest as [|next rest']; [done|].
    apply not_elem_of_cons in HC2 as [HC2 HC3].
    destruct (Tokenizer.inQuotes st && chr_eqb next QUOTE) eqn:E.
    - apply andb_true_iff in E as [Eq En]. apply chr_eqb_eq in En as ->.
      cbn [crlfOutside]. chr_consts. rewrite negb_involutive.
      do 2 f_equal. rewrite IH by (done || simpl; lia). done.
    - f_equal. rewrite IH; [done|simpl; lia|by apply not_elem_of_cons]. }
  destruct (Tokenizer.inQuotes st) eqn:Eq; cbn [negb andb orb].
  { f_equal. rewrite IH by (done || simpl; lia). cbn. by rewrite Eq. }
  destruct (str_eqb d [ch]) eqn:ED.
  { apply str_eqb_eq in ED.
    replace (chr_eqb ch LF) with false
      by (symmetry; apply chr_eqb_neq; congruence).
    f_equal. rewrite IH by (done || simpl; lia). cbn. by rewrite Eq. }
  rewrite orb_false_r.
  destruct (chr_eqb ch LF) eqn:ELF.
  - cbn [lineEnding app]. do 2 f_equal.
    rewrite IH by (done || simpl; lia). cbn. by rewrite Eq.
  - f_equal. rewrite IH by (done || simpl; lia). cbn. by rewrite Eq.
Qed.

(** C6 (as amended).  Let the delimiter and the comment prefix, when given,
    be neither a carriage return nor a line feed, and let a text be written
    with CRLF line endings: a carriage return is put before every line feed
    that ends a row or a comment line and has none, and nothing else is
    changed (a line break inside a quoted field is content).  This is the
    text with carriage returns put before line feeds; with no comment
    prefix, on a text without carriage returns, it is the text with every
    line feed outside quotes written CRLF, which is every line feed when
    the text has no quotes.  The two texts give the same tokenized rows and
    identical record sequences, under the same options, the delimiter
    being detected or given; so do, with no comment prefix, a text without
    carriage returns and the same text with every line feed outside quotes
    written CRLF. *)
Theorem line_ending_neutrality lower input opts :
  delimiter opts <> Some [CR] -> delimiter opts <> Some [LF] ->
  comment opts <> Some [CR] -> comment opts <> Some [LF] ->
  insCR false input (crlfText input opts)
  /\ (CR ∉ input -> comment opts = None ->
      crlfText input opts = crlfOutside false input
      /\ (QUOTE ∉ input -> crlfText input opts = crlf input))
  /\ rowsOf (crlfText input opts) opts = rowsOf input opts
  /\ parseCSV lower (crlfText input opts) opts = parseCSV lower input opts
  /\ (CR ∉ input -> comment opts = None ->
      parseCSV lower (crlfOutside false input) opts
      = parseCSV lower input opts).
Proof.
  intros HdCR HdLF HcCR HcLF.
  assert (Hdl : delimiterOf input opts <> [CR]
                /\ delimiterOf input opts <> [LF]).
  { unfold delimiterOf. destruct (delimiter opts) as [d|];
      [split; congruence|].
    destruct (detectDelimiter_candidate (stripBOM input)) as (x & Hx & ->).
    unfold candidates in Hx. split; cand_cases Hx; discriminate. }
  destruct Hdl as [HlCR HlLF].
  assert (Hins : insCR false input (crlfText input opts)).
  { unfold crlfText. generalize (delimiterOf input opts). intros dl.
    destruct input as [|c0 s']; [apply insCR_nil|].
    destruct (chr_eqb c0 BOM) eqn:E; [|apply toCRLF_insCR].
    apply chr_eqb_eq in E as ->. apply insCR_copy, toCRLF_insCR. }
  assert (Hstrip : stripBOM (crlfText input opts)
                   = toCRLF (delimiterOf input opts) (comment opts)
                       (skipOf opts) (stripBOM input) Tokenizer.init false).
  { unfold crlfText. generalize (delimiterOf input opts). intros dl.
    destruct input as [|c0 s']; [done|].
    cbn [stripBOM]. destruct (chr_eqb c0 BOM) eqn:E.
    - cbn [stripBOM]. by chr_consts.
    - destruct (insCR_head false c0 s' _
                  (toCRLF_insCR dl (comment opts) (skipOf opts) (c0 :: s')
                     Tokenizer.init false)) as [t'' [Ht|[-> Ht]]];
        rewrite Ht at 1; cbn [stripBOM]; [by rewrite E|done]. }
  assert (Hd : delimiterOf (crlfText input opts) opts
               = delimiterOf input opts).
  { unfold delimiterOf. destruct (delimiter opts); [done|].
    rewrite Hstrip. unfold detectDelimiter, sample.
    by rewrite (proj1 (insCR_splitLines false _ _
                         (toCRLF_insCR _ _ _ _ _ _))). }
  assert (Hrows : rowsOf (crlfText input opts) opts = rowsOf input opts).
  { unfold rowsOf. rewrite Hd, Hstrip. unfold Tokenizer.parseRows.
    by rewrite loop_toCRLF. }
  assert (Hout : CR ∉ input -> comment opts = None ->
                 crlfText input opts = crlfOutside false input).
  { intros HC Hc. unfold crlfText. rewrite Hc.
    revert HlLF. generalize (delimiterOf input opts). intros dl HlLF.
    destruct input as [|c0 s']; [done|].
    destruct (chr_eqb c0 BOM) eqn:E; [|by apply toCRLF_outside].
    apply chr_eqb_eq in E as ->.
    apply not_elem_of_cons in HC as [_ HC].
    cbn [crlfOutside]. change (chr_eqb BOM QUOTE) with false.
    change (chr_eqb BOM LF) with false. rewrite andb_false_r.
    f_equal. by apply toCRLF_outside. }
  assert (Hsame : parseCSV lower (crlfText input opts) opts
                  = parseCSV lower input opts).
  { unfold parseCSV. by rewrite Hrows. }
  split; [done|]. split; [|split; [done|split; [done|]]].
  2: { intros HC Hc. by rewrite <- Hout. }
  - intros HC Hc. split; [by apply Hout|].
    intros HQ. unfold crlfText. rewrite Hc.
    revert HlLF. generalize (delimiterOf input opts). intros dl HlLF.
    destruct input as [|c0 s']; [done|].
    destruct (chr_eqb c0 BOM) eqn:E.
    + apply chr_eqb_eq in E as ->.
      apply not_elem_of_cons in HQ as [_ HQ].
      apply not_elem_of_cons in HC as [_ HC].
      rewrite crlf_other by done. f_equal. by apply toCRLF_plain.
    + by apply toCRLF_plain.
Qed.

Lemma line_ending_neutrality_witness :
  let opts := {| delimiter := None; headers := None;
                 preserveHeaderCase := None; comment := Some (js "#");
                 skipEmptyLines := None; defval := VUndefined;
                 inferTypes := None; trimCells := None |} in
  let input :=
    js "h;k" ++ [LF] ++ js "#c" ++ [QUOTE; LF]
    ++ quoteField (js "x" ++ [LF] ++ js "y") ++ js ";2" ++ [LF] in
  let plain :=
    js "h" ++ [LF] ++ quoteField (js "x" ++ [LF] ++ js "y") ++ [LF] in
  (crlfText input opts
   = js "h;k" ++ [CR; LF] ++ js "#c" ++ [QUOTE; CR; LF]
     ++ quoteField (js "x" ++ [LF] ++ js "y") ++ js ";2" ++ [CR; LF]
   /\ parseCSV asciiLower (crlfText input opts) opts
      = parseCSV asciiLower input opts
   /\ parseCSV asciiLower input opts
      = [record [(js "h", VStr (js "x" ++ [LF] ++ js "y"));
                 (js "k", VStr (js "2"))]])
  /\ (crlfOutside false plain
      = js "h" ++ [CR; LF] ++ quoteField (js "x" ++ [LF] ++ js "y")
        ++ [CR; LF]
      /\ parseCSV asciiLower (crlfOutside false plain) noOptions
         = parseCSV asciiLower plain noOptions
      /\ parseCSV asciiLower plain noOptions
         = [record [(js "h", VStr (js "x" ++ [LF] ++ js "y"))]]).
Proof.
  intros opts input plain.
  destruct (line_ending_neutrality asciiLower input opts
              ltac:(discriminate) ltac:(discriminate)
              ltac:(discriminate) ltac:(discriminate))
    as (_ & _ & _ & Hsame & _).
  destruct (line_ending_neutrality asciiLower plain noOptions
              ltac:(discriminate) ltac:(discriminate)
              ltac:(discriminate) ltac:(discriminate))
    as (_ & _ & _ & _ & Hplain).
  split.
  - split; [by vm_compute|]. split; [exact Hsame|by vm_compute].
  - split; [by vm_compute|]. split; [|by vm_compute].
    apply Hplain; [by_decide|reflexivity].
Defined.

(** C6 (the claim as written fails).  With the delimiter given as a
    carriage return, the text [a / b] has the header [a] and the one record
    of the value [b] when its line ending is LF; when it is CRLF, the
    carriage return closes a field, and the record has a second column,
    named by the empty string. *)
Lemma line_ending_counterexample :
  let opts := {| delimiter := Some [CR]; headers := None;
                 preserveHeaderCase := None; comment := None;
                 skipEmptyLines := None; defval := VUndefined;
                 inferTypes := None; trimCells := None |} in
  let lf := js "a" ++ [LF] ++ js "b" in
  let crlf := js "a" ++ [CR; LF] ++ js "b" in
  parseCSV asciiLower lf opts = [record [(js "a", VStr (js "b"))]]
  /\ parseCSV asciiLower crlf opts
     = [record [(js "a", VStr (js "b")); ([], VNull)]]
  /\ parseCSV asciiLower crlf opts <> parseCSV asciiLower lf opts.
Proof.
  split; [by vm_compute|]. split; [by vm_compute|].
  vm_compute. discriminate.
Qed.

(** * Further properties of the code *)

(** ** Invariants of the tokenizer *)

(** A property of the state that every operation of the loop keeps holds
    after the loop. *)
Lemma loop_invariant d c skip (I : Tokenizer.state -> Prop) :
  (forall ch st, I st -> I (Tokenizer.addChar ch st)) ->
  (forall st, I st -> I (Tokenizer.toggle st)) ->
  (forall st, I st -> I (Tokenizer.pushField st)) ->
  (forall st, I st -> I (Tokenizer.pushRow skip (Tokenizer.pushField st))) ->
  forall text st, I st -> I (Tokenizer.loop d c skip text st).
Proof.
  intros Hadd Htog Hpf Hpr text.
  induction text as [text IH] using text_len_ind. intros st Hst.
  destruct text as [|ch rest]; [done|].
  cbn [Tokenizer.loop]. rewrite skipLine_afterLF.
  repeat match goal with
  | |- context [if ?b then _ else _] => destruct b
  | |- context [match afterLF ?r with _ => _ end] =>
      let E := fresh "E" in
      destruct (afterLF r) eqn:E; [apply afterLF_shorter in E|]
  | |- context [match ?r with [] => _ | _ :: _ => _ end] => destruct r
  end;
  try done;
  apply IH; try (simpl in *; lia); auto.
Qed.

(** X1.  Every tokenized row has at least one field, and none is rejected
    by the row filter: with [skipEmptyLines] on, no tokenized row is a
    single field that trims to the empty string. *)
Theorem rows_well_formed d c skip text :
  Forall (fun r => r <> []
                   /\ (skip = true -> forall f, r = [f] -> trim f <> []))
    (Tokenizer.parseRows d c skip text).
Proof.
  set (Q := fun r : list jsstring =>
              r <> [] /\ Tokenizer.blankRow skip r = false).
  assert (HQ : forall rows, Forall Q rows ->
            Forall (fun r => r <> []
              /\ (skip = true -> forall f, r = [f] -> trim f <> [])) rows).
  { intros rows Hrows. eapply Forall_impl; [exact Hrows|].
    intros r [Hne Hb]. split; [done|].
    intros -> f ->. unfold Tokenizer.blankRow in Hb. cbn in Hb.
    by apply is_empty_true_neg in Hb. }
  assert (Hpush : forall st, Forall Q (Tokenizer.lines st) ->
            Forall Q (Tokenizer.lines
                        (Tokenizer.pushRow skip (Tokenizer.pushField st)))).
  { intros st Hst. cbn.
    destruct (Tokenizer.blankRow skip _) eqn:E; [done|].
    apply Forall_app. split; [done|]. constructor; [|done].
    split; [|done]. by destruct (Tokenizer.row st). }
  apply HQ. unfold Tokenizer.parseRows, Tokenizer.finish.
  assert (Hloop : Forall Q (Tokenizer.lines
                    (Tokenizer.loop d c skip text Tokenizer.init))).
  { apply (loop_invariant d c skip
             (fun st => Forall Q (Tokenizer.lines st))); done. }
  destruct (_ || _); [by apply Hpush|done].
Qed.

(** ** Quotes that are never closed *)

Lemma loop_in_quotes d c skip body :
  QUOTE ∉ body ->
  forall st, Tokenizer.inQuotes st = true ->
    Tokenizer.loop d c skip body st
    = {| Tokenizer.field := Tokenizer.field st ++ body;
         Tokenizer.row := Tokenizer.row st;
         Tokenizer.inQuotes := true;
         Tokenizer.lines := Tokenizer.lines st |}.
Proof.
  induction body as [|ch body IH]; intros Hb st Hq.
  - cbn. rewrite app_nil_r, <- Hq. by destruct st.
  - apply not_elem_of_cons in Hb as [Hch Hb].
    cbn [Tokenizer.loop]. unfold Tokenizer.commentStart. rewrite Hq.
    cbn [negb andb].
    replace (chr_eqb ch QUOTE) with false
      by (symmetry; apply chr_eqb_neq; congruence).
    rewrite IH by done. cbn. by rewrite <- app_assoc.
Qed.

(** X2.  A quote that the loop reads outside quotes, where it starts no
    comment, and that is never closed (no quote follows it) raises nothing,
    wherever it stands: the whole rest of the text, delimiters and line
    breaks included, is appended to the current field, and the loop ends
    inside quotes.  The end of the input then closes that field into the
    current row, which is emitted by the rule for the last row: unless it
    is the single empty field, or [skipEmptyLines] is on and it is a single
    field that trims to the empty string.  In particular a text that starts
    with such a quote gives the one row of the one field that is the rest
    of the text, or no row when that rest is empty, or blank with
    [skipEmptyLines] on. *)
Theorem unterminated_quote d c skip body :
  QUOTE ∉ body ->
  (forall st,
     Tokenizer.inQuotes st = false ->
     Tokenizer.commentStart c st QUOTE = false ->
     Tokenizer.loop d c skip (QUOTE :: body) st
     = {| Tokenizer.field := Tokenizer.field st ++ body;
          Tokenizer.row := Tokenizer.row st;
          Tokenizer.inQuotes := true;
          Tokenizer.lines := Tokenizer.lines st |})
  /\ (forall pre st,
        Tokenizer.loop d c skip (pre ++ QUOTE :: body) Tokenizer.init
        = Tokenizer.loop d c skip (QUOTE :: body) st ->
        Tokenizer.inQuotes st = false ->
        Tokenizer.commentStart c st QUOTE = false ->
        Tokenizer.parseRows d c skip (pre ++ QUOTE :: body)
        = if (negb (is_empty (Tokenizer.row st))
              || negb (is_empty (Tokenizer.field st ++ body)))
             && negb (skip && is_empty (Tokenizer.row st)
                      && is_empty (trim (Tokenizer.field st ++ body)))
          then Tokenizer.lines st
               ++ [Tokenizer.row st ++ [Tokenizer.field st ++ body]]
          else Tokenizer.lines st)
  /\ (c <> Some [QUOTE] ->
      Tokenizer.parseRows d c skip (QUOTE :: body)
      = if is_empty body || (skip && is_empty (trim body)) then []
        else [[body]]).
Proof.
  intros Hb.
  assert (Hopen : forall st,
    Tokenizer.inQuotes st = false ->
    Tokenizer.commentStart c st QUOTE = false ->
    Tokenizer.loop d c skip (QUOTE :: body) st
    = {| Tokenizer.field := Tokenizer.field st ++ body;
         Tokenizer.row := Tokenizer.row st;
         Tokenizer.inQuotes := true;
         Tokenizer.lines := Tokenizer.lines st |}).
  { intros st Hq Hcs. cbn [Tokenizer.loop]. rewrite Hcs, Hq. chr_consts.
    cbn [andb]. rewrite match_list_same.
    rewrite loop_in_quotes; [done|done|]. cbn. by rewrite Hq. }
  split; [done|]. split.
  - intros pre st Hpre Hq Hcs. unfold Tokenizer.parseRows.
    by rewrite Hpre, Hopen, finish_cases.
  - intros Hc. unfold Tokenizer.parseRows.
    rewrite Hopen; [|done|by apply commentStart_quote].
    rewrite finish_cases. cbn.
    destruct (is_empty body); [done|]. cbn. rewrite andb_true_r.
    by destruct (skip && is_empty (trim body)).
Qed.

Lemma unterminated_quote_witness :
  Tokenizer.parseRows [COMMA] None true
    (js "x" ++ [LF] ++ js "a," ++ QUOTE :: js " ")
  = [[js "x"]; [js "a"; js " "]]
  /\ Tokenizer.parseRows [COMMA] None true
       (QUOTE :: js "a,b" ++ LF :: js "c")
     = [[js "a,b" ++ LF :: js "c"]].
Proof.
  assert (Hb1 : QUOTE ∉ js " ") by by_decide.
  assert (Hb2 : QUOTE ∉ js "a,b" ++ LF :: js "c") by by_decide.
  split.
  - apply (proj1 (proj2 (unterminated_quote [COMMA] None true (js " ") Hb1))
             (js "x" ++ [LF] ++ js "a,")
             {| Tokenizer.field := []; Tokenizer.row := [js "a"];
                Tokenizer.inQuotes := false;
                Tokenizer.lines := [[js "x"]] |});
      reflexivity.
  - apply (proj2 (proj2 (unterminated_quote [COMMA] None true
                           (js "a,b" ++ LF :: js "c") Hb2))).
    discriminate.
Defined.

(** ** Texts without quotes *)

Lemma str_eqb_single d ch : str_eqb [d] [ch] = chr_eqb ch d.
Proof.
  destruct (chr_eqb ch d) eqn:E.
  - apply chr_eqb_eq in E as ->. by apply str_eqb_eq.
  - apply chr_eqb_neq in E. apply str_eqb_neq. congruence.
Qed.

(** A line free of quotes and line breaks, read outside quotes: its pieces
    between delimiters go to the row, the last one stays the current
    field. *)
Lemma loop_plain_line d skip line rest :
  QUOTE ∉ line -> LF ∉ line -> CR ∉ line ->
  forall st, Tokenizer.inQuotes st = false ->
    Tokenizer.loop [d] None skip (line ++ rest) st
    = Tokenizer.loop [d] None skip rest
        {| Tokenizer.field :=
             List.last (splitOn d (Tokenizer.field st) line) [];
           Tokenizer.row :=
             Tokenizer.row st
             ++ removelast (splitOn d (Tokenizer.field st) line);
           Tokenizer.inQuotes := false;
           Tokenizer.lines := Tokenizer.lines st |}.
Proof.
  induction line as [|ch line IH]; intros HQ HLF HCR st Hq.
  - cbn. rewrite app_nil_r, <- Hq. by destruct st.
  - apply not_elem_of_cons in HQ as [HQ1 HQ].
    apply not_elem_of_cons in HLF as [HLF1 HLF].
    apply not_elem_of_cons in HCR as [HCR1 HCR].
    cbn [app Tokenizer.loop splitOn].
    unfold Tokenizer.commentStart, Tokenizer.isComment.
    rewrite !andb_false_r, Hq, str_eqb_single. cbn [negb andb].
    replace (chr_eqb ch QUOTE) with false
      by (symmetry; apply chr_eqb_neq; congruence).
    replace (chr_eqb ch LF) with false
      by (symmetry; apply chr_eqb_neq; congruence).
    replace (chr_eqb ch CR) with false
      by (symmetry; apply chr_eqb_neq; congruence).
    cbn [orb]. destruct (chr_eqb ch d).
    + rewrite IH by done. cbn [Tokenizer.pushField Tokenizer.field
        Tokenizer.row Tokenizer.lines].
      rewrite last_cons_nonempty, removelast_cons_nonempty
        by apply splitOn_nonempty.
      by rewrite <- app_assoc.
    + by rewrite IH.
Qed.

Lemma splitOn_LF_cases text :
  forall cur,
    ((LF ∉ text) /\ splitOn LF cur text = [cur ++ text])
    \/ exists line rest,
         text = line ++ LF :: rest /\ (LF ∉ line)
         /\ splitOn LF cur text = (cur ++ line) :: splitOn LF [] rest.
Proof.
  induction text as [|ch text IH]; intros cur.
  - left. split; [apply not_elem_of_nil|]. cbn. by rewrite app_nil_r.
  - cbn [splitOn]. destruct (chr_eqb ch LF) eqn:E.
    + apply chr_eqb_eq in E as ->. right. exists [], text.
      split; [done|]. split; [apply not_elem_of_nil|].
      by rewrite app_nil_r.
    + apply chr_eqb_neq in E.
      destruct (IH (cur ++ [ch])) as [[Hn Hs]|(line & rest & -> & Hn & Hs)].
      * left. split; [by apply not_elem_of_cons|].
        by rewrite Hs, <- app_assoc.
      * right. exists (ch :: line), rest. split; [done|].
        split; [by apply not_elem_of_cons|].
        by rewrite Hs, <- app_assoc.
Qed.

Lemma splitOn_single d line : forall cur x,
  splitOn d cur line = [x] -> x = cur ++ line.
Proof.
  induction line as [|ch line IH]; intros cur x; cbn [splitOn].
  - intros [= <-]. by rewrite app_nil_r.
  - destruct (chr_eqb ch d).
    + intros [= _ H]. by apply splitOn_nonempty in H.
    + intros H. apply IH in H. by rewrite H, <- app_assoc.
Qed.

Lemma naiveRows_cons d skip l ls :
  ls <> [] ->
  naiveRows d skip (l :: ls)
  = (if Tokenizer.blankRow skip (splitOn d [] l) then []
     else [splitOn d [] l]) ++ naiveRows d skip ls.
Proof. by destruct ls. Qed.

Lemma finish_loop_plain d skip :
  d <> LF ->
  forall text st,
    QUOTE ∉ text -> CR ∉ text ->
    Tokenizer.inQuotes st = false -> Tokenizer.field st = [] ->
    Tokenizer.row st = [] ->
    Tokenizer.finish skip (Tokenizer.loop [d] None skip text st)
    = Tokenizer.lines st ++ naiveRows d skip (splitOn LF [] text).
Proof.
  intros Hd text.
  induction text as [text IH] using text_len_ind.
  intros st HQ HCR Hq Hf Hr.
  destruct (splitOn_LF_cases text [])
    as [[HLF Hs]|(line & rest & -> & HLF & Hs)].
  - rewrite Hs. cbn [app naiveRows].
    rewrite <- (app_nil_r text) at 1.
    rewrite loop_plain_line by done. cbn [Tokenizer.loop].
    rewrite finish_cases, Hf, Hr. unfold lastRow.
    cbn [Tokenizer.field Tokenizer.row Tokenizer.lines app].
    rewrite <- app_removelast_last by apply splitOn_nonempty.
    destruct (splitOn d [] text) as [|x [|y ps]] eqn:Eps.
    + by apply splitOn_nonempty in Eps.
    + apply splitOn_single in Eps as ->. cbn [app removelast List.last].
      unfold Tokenizer.blankRow. cbn [is_empty orb negb andb].
      rewrite andb_true_r.
      destruct (is_empty text); [by rewrite app_nil_r|]. cbn.
      destruct (skip && is_empty (trim text)); [by rewrite app_nil_r|done].
    + assert (Htext : is_empty text = false).
      { destruct text; [done|done]. }
      rewrite Htext. unfold Tokenizer.blankRow.
      rewrite !andb_false_r. cbn [orb negb].
      replace (is_empty (removelast (x :: y :: ps))) with false
        by (by destruct ps).
      by cbn [negb orb andb].
  - apply not_elem_of_app in HQ as [HQ1 HQ2].
    apply not_elem_of_cons in HQ2 as [_ HQ2].
    apply not_elem_of_app in HCR as [HCR1 HCR2].
    apply not_elem_of_cons in HCR2 as [_ HCR2].
    rewrite Hs. cbn [app].
    rewrite naiveRows_cons by apply splitOn_nonempty.
    rewrite loop_plain_line by done.
    cbn [Tokenizer.loop]. unfold Tokenizer.commentStart, Tokenizer.isComment.
    rewrite !andb_false_r, str_eqb_single. chr_consts.
    replace (chr_eqb LF d) with false
      by (symmetry; apply chr_eqb_neq; congruence).
    cbn [Tokenizer.inQuotes negb andb orb]. rewrite match_list_same.
    rewrite IH; [|rewrite length_app; simpl; lia|done..].
    cbn [Tokenizer.pushRow Tokenizer.pushField Tokenizer.lines
         Tokenizer.row Tokenizer.field].
    rewrite Hf, Hr. cbn [app].
    rewrite <- app_removelast_last by apply splitOn_nonempty.
    destruct (Tokenizer.blankRow skip (splitOn d [] line)); [done|].
    by rewrite <- app_assoc.
Qed.

(** X3.  On a text without quotes and without carriage returns, with a
    one-character delimiter other than the line feed and no comment prefix,
    the tokenizer reads the text line by line: the text is split at its
    line feeds, each line at the delimiter; a row of one blank field is
    dropped when [skipEmptyLines] is on, and an empty last line (the text
    ends with a line feed, or is empty) gives no row. *)
Theorem plain_text_rows d skip text :
  QUOTE ∉ text -> CR ∉ text -> d <> LF ->
  Tokenizer.parseRows [d] None skip text
  = naiveRows d skip (splitOn LF [] text).
Proof.
  intros HQ HCR Hd. unfold Tokenizer.parseRows.
  by rewrite finish_loop_plain.
Qed.

Lemma plain_text_rows_witness :
  Tokenizer.parseRows [COMMA] None true
    (js "a,b" ++ LF :: LF :: js "1,,2" ++ [LF])
  = [[js "a"; js "b"]; [js "1"; []; js "2"]].
Proof.
  rewrite (plain_text_rows COMMA true
             (js "a,b" ++ LF :: LF :: js "1,,2" ++ [LF]));
    [reflexivity| | |discriminate];
    vm_compute; intros H;
    repeat (apply elem_of_cons in H as [H|H]; [discriminate|]);
    by apply elem_of_nil in H.
Defined.

(** ** More on the delimiter detector *)

(** X4.  The detector always returns one of its four candidates: a string
    of exactly one character, which is not the quote, the carriage return
    or the line feed. *)
Theorem detector_returns_candidate s :
  detectDelimiter s ∈ [[COMMA]; [SEMI]; [TAB]; [PIPE]]
  /\ length (detectDelimiter s) = 1
  /\ detectDelimiter s <> [QUOTE]
  /\ detectDelimiter s <> [CR] /\ detectDelimiter s <> [LF].
Proof.
  destruct (detectDelimiter_candidate s) as (c & Hc & ->).
  unfold candidates in Hc.
  cand_cases Hc; (split; [apply list_elem_of_In; simpl; tauto|]);
    repeat split; discriminate.
Qed.

Lemma splitOn_absent d line : forall cur,
  d ∉ line -> splitOn d cur line = [cur ++ line].
Proof.
  induction line as [|ch line IH]; intros cur Hd; cbn [splitOn].
  - by rewrite app_nil_r.
  - apply not_elem_of_cons in Hd as [Hch Hd].
    replace (chr_eqb ch d) with false
      by (symmetry; apply chr_eqb_neq; congruence).
    by rewrite IH, <- app_assoc.
Qed.

Lemma fold_add_ones (smp : list jsstring) d :
  (forall line, line ∈ smp -> d ∉ line) ->
  forall a, fold_left Nat.add (columns smp d) a = a + length smp.
Proof.
  induction smp as [|l smp IH]; intros Hall a; cbn; [lia|].
  rewrite splitOn_absent by (apply Hall; by left).
  rewrite IH by (intros line Hl; apply Hall; by right). cbn. lia.
Qed.

Lemma avgQ_absent smp d :
  smp <> [] -> (forall line, line ∈ smp -> d ∉ line) ->
  (avgQ smp d <= 1)%Q.
Proof.
  intros Hne Hall. unfold avgQ, Qle, sum. cbn [Qnum Qden].
  rewrite fold_add_ones by done.
  assert (Hlen : length smp <> 0) by (by destruct smp).
  rewrite <- (positive_nat_Z (Pos.of_nat (length smp))), Nat2Pos.id by done.
  lia.
Qed.

(** X5.  When none of the semicolon, the tab and the pipe occurs in the
    sampled lines, the detector returns the comma, whether or not a comma
    occurs. *)
Theorem detector_defaults_to_comma s :
  (forall line, line ∈ sample s ->
     (SEMI ∉ line) /\ (TAB ∉ line) /\ (PIPE ∉ line)) ->
  detectDelimiter s = [COMMA].
Proof.
  intros Hall.
  destruct (sample s) as [|l smp] eqn:E; [by apply detect_empty_sample|].
  assert (Hne : sample s <> []) by (by rewrite E).
  assert (Hothers : forall x, x ∈ [SEMI; TAB; PIPE] ->
            (avgQ (sample s) x <= 1)%Q).
  { intros x Hx. apply avgQ_absent; [done|]. intros line Hl.
    rewrite E in Hl. destruct (Hall line Hl) as (H1 & H2 & H3).
    cand_cases Hx; done. }
  unfold detectDelimiter, candidates. rewrite <- E in *. clear E.
  destruct (Qlt_le_dec 1 (avgQ (sample s) COMMA)) as [Hlt|Hle].
  - rewrite (detect_fold_pick (sample s) [] COMMA [SEMI; TAB; PIPE]);
      [done|done| | |done].
    + intros x Hx. by apply elem_of_nil in Hx.
    + intros x Hx. eapply Qle_trans; [by apply Hothers|].
      by apply Qlt_le_weak.
  - rewrite detect_fold_keep; [done|done|].
    intros x Hx. apply elem_of_cons in Hx as [->|Hx]; [done|].
    by apply Hothers.
Qed.

Lemma detector_defaults_to_comma_witness :
  detectDelimiter (js "name" ++ LF :: js "Alice") = [COMMA].
Proof.
  apply (detector_defaults_to_comma (js "name" ++ LF :: js "Alice")).
  intros line Hl. vm_compute in Hl.
  cand_cases Hl; repeat split; vm_compute; intros H;
    repeat (apply elem_of_cons in H as [H|H]; [discriminate|]);
    by apply elem_of_nil in H.
Defined.

(** The pieces of a text, but for the last one, stay the pieces of every
    longer text. *)
Lemma splitLines_app t u :
  forall cur, exists pre lst tail,
    splitLines cur t = pre ++ [lst]
    /\ splitLines cur (t ++ u) = pre ++ tail.
Proof.
  induction t as [t IH] using text_len_ind. intros cur.
  destruct t as [|ch t'].
  - exists [], cur, (splitLines cur u). by cbn.
  - cbn [app splitLines]. destruct (chr_eqb ch LF).
    { destruct (IH t' ltac:(simpl; lia) []) as (pre & lst & tail & H1 & H2).
      exists (cur :: pre), lst, tail. by rewrite H1, H2. }
    destruct t' as [|n t''].
    { exists [], (cur ++ [ch]). eexists. split; reflexivity. }
    cbn [app]. destruct (chr_eqb ch CR && chr_eqb n LF).
    + destruct (IH t'' ltac:(simpl; lia) []) as (pre & lst & tail & H1 & H2).
      exists (cur :: pre), lst, tail. by rewrite H1, H2.
    + destruct (IH (n :: t'') ltac:(simpl; lia) (cur ++ [ch]))
        as (pre & lst & tail & H1 & H2).
      cbn [app] in H2. exists pre, lst, tail. by rewrite H1, H2.
Qed.

Lemma splitLines_length t :
  forall cur,
    length (splitLines cur t)
    = S (length (List.filter (fun c => chr_eqb c LF) t)).
Proof.
  induction t as [t IH] using text_len_ind. intros cur.
  destruct t as [|ch t']; [done|].
  cbn [splitLines List.filter]. destruct (chr_eqb ch LF) eqn:E.
  { cbn [length]. by rewrite IH by (simpl; lia). }
  destruct t' as [|n t'']; [done|].
  destruct (chr_eqb ch CR && chr_eqb n LF) eqn:E2.
  - apply andb_true_iff in E2 as [_ En].
    cbn [List.filter length]. rewrite En. cbn [length].
    by rewrite IH by (simpl; lia).
  - by rewrite IH by (simpl; lia).
Qed.

(** X6.  The detector reads the first five lines only: once a text has
    five line feeds, whatever follows it does not change the delimiter
    that is detected. *)
Theorem detector_first_five_lines t u :
  5 <= length (List.filter (fun c => chr_eqb c LF) t) ->
  detectDelimiter (t ++ u) = detectDelimiter t.
Proof.
  intros Hfive. unfold detectDelimiter, sample.
  destruct (splitLines_app t u []) as (pre & lst & tail & H1 & H2).
  assert (Hlen := splitLines_length t []).
  rewrite H1, length_app in Hlen. cbn in Hlen.
  rewrite H1, H2.
  by rewrite !take_app_le by lia.
Qed.

Lemma detector_first_five_lines_witness :
  detectDelimiter
    ((js "a;b" ++ [LF; LF; LF; LF; LF]) ++ js "x,y,z,t,u,v")
  = detectDelimiter (js "a;b" ++ [LF; LF; LF; LF; LF]).
Proof.
  apply (detector_first_five_lines
           (js "a;b" ++ [LF; LF; LF; LF; LF]) (js "x,y,z,t,u,v")).
  vm_compute. lia.
Defined.

(** ** More on [parseCSV] and the records *)

(** X7.  A byte order mark in front of a text changes nothing: the records
    of the marked text are those of the text itself. *)
Theorem bom_is_transparent lower t opts :
  head t <> Some BOM ->
  parseCSV lower (BOM :: t) opts = parseCSV lower t opts.
Proof.
  intros Hhd.
  assert (Hs : stripBOM t = t).
  { destruct t as [|ch t']; [done|]. cbn [stripBOM].
    replace (chr_eqb ch BOM) with false; [done|].
    symmetry. apply chr_eqb_neq. intros ->. by apply Hhd. }
  unfold parseCSV, rowsOf, delimiterOf.
  change (stripBOM (BOM :: t)) with t. by rewrite Hs.
Qed.

Lemma bom_is_transparent_witness :
  parseCSV asciiLower (BOM :: js "a,b" ++ LF :: js "1,2") noOptions
  = parseCSV asciiLower (js "a,b" ++ LF :: js "1,2") noOptions.
Proof.
  apply (bom_is_transparent asciiLower (js "a,b" ++ LF :: js "1,2")).
  discriminate.
Defined.

Lemma headerNamesOf_length lower input opts :
  length (headerNamesOf lower input opts) = widthOf lower input opts.
Proof. apply widen_length. unfold widthOf. lia. Qed.

Lemma projectOf_fold lower input opts r :
  projectOf lower input opts r
  = fold_left
      (fun o c => assign o (keyAt (headerNamesOf lower input opts) c)
         (cellValue (trimOf opts) (inferOf opts) (defvalOf opts) (r !! c)))
      (seq 0 (length (headerNamesOf lower input opts))) emptyRow.
Proof. by rewrite headerNamesOf_length. Qed.

Lemma keyAt_lookup (H : list jsstring) c key :
  c < length H -> keyAt H c = key -> H !! c = Some key.
Proof.
  intros Hlt <-. unfold keyAt.
  by destruct (lookup_lt_is_Some_2 H c Hlt) as [k ->].
Qed.

(** X8.  The value a record holds under a header name is that of the last
    column carrying the name: the cell of the row in that column, trimmed,
    inferred or defaulted as the options say.  With pairwise distinct
    header names every column of the row is found under its own name (the
    name [__proto__] apart). *)
Theorem record_holds_last_column lower input opts r c key :
  headerNamesOf lower input opts !! c = Some key ->
  key <> PROTO ->
  (forall c', c < c' -> headerNamesOf lower input opts !! c' <> Some key) ->
  props (projectOf lower input opts r) !! key
  = Some (cellValue (trimOf opts) (inferOf opts) (defvalOf opts) (r !! c)).
Proof.
  intros Hkey Hproto Hlast.
  set (H := headerNamesOf lower input opts) in *.
  assert (Hlt : c < length H) by (apply lookup_lt_is_Some_1; eauto).
  rewrite projectOf_fold. fold H.
  replace (length H) with (c + S (length H - S c)) by lia.
  rewrite seq_app, fold_left_app. cbn [seq fold_left Nat.add].
  rewrite fold_assign_other.
  - replace (keyAt H c) with key by (unfold keyAt; by rewrite Hkey).
    rewrite assign_plain by done. cbn. by rewrite lookup_insert_eq.
  - intros Hin. apply list_elem_of_fmap in Hin as (c' & Hc' & Hin).
    apply list_elem_of_In, in_seq in Hin.
    apply (Hlast c'); [lia|].
    apply keyAt_lookup; [lia|done].
Qed.

Lemma record_holds_last_column_witness :
  let input := js "a,b,a" ++ LF :: js "1,2,3" in
  props (projectOf asciiLower input noOptions [js "1"; js "2"; js "3"])
    !! js "a"
  = Some (VStr (js "3")).
Proof.
  intros input.
  apply (record_holds_last_column asciiLower input noOptions
           [js "1"; js "2"; js "3"] 2 (js "a")).
  - reflexivity.
  - discriminate.
  - intros c' Hc'. destruct c' as [|[|[|c']]]; [lia..|]. by vm_compute.
Defined.

Lemma fold_assign_proto (k : nat -> jsstring) (v : nat -> value) cs :
  forall o, PROTO ∉ k <$> cs ->
    prototype (fold_left (fun o c => assign o (k c) (v c)) cs o)
    = prototype o.
Proof.
  induction cs as [|c cs IH]; intros o Hp; [done|].
  rewrite fmap_cons in Hp. apply not_elem_of_cons in Hp as [Hc Hp].
  cbn [fold_left]. rewrite IH by done. by rewrite assign_plain.
Qed.

(** X9.  A record has no key that is not a name of the widened header, and
    its prototype is left as it is unless a header is named
    [__proto__]. *)
Theorem record_keys_are_headers lower input opts r :
  (forall key, is_Some (props (projectOf lower input opts r) !! key) ->
     key ∈ headerNamesOf lower input opts)
  /\ (PROTO ∉ headerNamesOf lower input opts ->
      prototype (projectOf lower input opts r) = ProtoObject).
Proof.
  split.
  - intros key Hsome.
    destruct (decide (key ∈ headerNamesOf lower input opts)) as [|Hout];
      [done|].
    rewrite projectOf_fold, fold_assign_other in Hsome.
    + cbn in Hsome. rewrite lookup_empty in Hsome. by destruct Hsome.
    + by rewrite keyAt_seq.
  - intros Hp. rewrite projectOf_fold, fold_assign_proto; [done|].
    by rewrite keyAt_seq.
Qed.

Lemma record_keys_are_headers_witness :
  let input := js "a,b" ++ LF :: js "1,2,3" in
  prototype (projectOf asciiLower input noOptions [js "1"; js "2"; js "3"])
  = ProtoObject.
Proof.
  intros input.
  apply (proj2 (record_keys_are_headers asciiLower input noOptions
                  [js "1"; js "2"; js "3"])).
  by_decide.
Defined.

(** *** Synthesized header names *)

Lemma js_inj s1 s2 : js s1 = js s2 -> s1 = s2.
Proof.
  unfold js. intros H.
  rewrite <- (string_of_list_ascii_of_string s1),
          <- (string_of_list_ascii_of_string s2).
  f_equal. revert H.
  generalize (list_ascii_of_string s1) (list_ascii_of_string s2).
  induction l as [|a l IH]; intros [|b l']; cbn; try done.
  intros [= Hab Hl]. f_equal; [|by apply IH].
  by rewrite <- (ascii_N_embedding a), <- (ascii_N_embedding b), Hab.
Qed.

Lemma to_uint_nonnil n : Nat.to_uint n <> Decimal.Nil.
Proof.
  rewrite <- (DecimalNat.Unsigned.of_to n) at 1.
  rewrite DecimalNat.Unsigned.to_of. apply DecimalFacts.unorm_nonnil.
Qed.

Lemma synth_inj i j : synth i = synth j -> i = j.
Proof.
  unfold synth. intros H. apply app_inv_head, js_inj in H.
  apply DecimalNat.Unsigned.to_uint_inj.
  assert (Hi := DecimalString.NilZero.usu _ (to_uint_nonnil i)).
  assert (Hj := DecimalString.NilZero.usu _ (to_uint_nonnil j)).
  rewrite H in Hi. congruence.
Qed.

Lemma synth_not_proto i : synth i <> PROTO.
Proof. unfold synth, PROTO. cbn. discriminate. Qed.

Lemma NoDup_synth n m : NoDup (List.map synth (seq n m)).
Proof.
  apply (NoDup_fmap_2_strong synth).
  - intros i j _ _. apply synth_inj.
  - apply NoDup_seq.
Qed.

Lemma headerNamesOf_no_headers lower input opts :
  headers opts = Some (HBool false) ->
  headerNamesOf lower input opts
  = List.map synth (seq 0 (widestRow (rowsOf input opts))).
Proof.
  intros Hh. unfold headerNamesOf, widthOf, namesOf, headersOf.
  rewrite Hh. cbn [from_option id resolveHeaders fst]. rewrite imap_synth.
  unfold widen. rewrite length_map, length_seq.
  assert (Hle : length (List.hd [] (rowsOf input opts))
                <= widestRow (rowsOf input opts)).
  { destruct (rowsOf input opts) as [|r0 rest] eqn:E; [cbn; lia|].
    apply widestRow_ge. by left. }
  rewrite Nat.max_r by done. rewrite <- map_app, <- seq_app.
  do 2 f_equal. lia.
Qed.

(** X10.  With [headers] false the keys of every record are exactly
    [c0 .. c(W-1)], [W] the width of the widest tokenized row: these names
    never collide, so each record has [W] keys, and the value under [ci] is
    that of the cell in column [i]. *)
Theorem no_header_records lower input opts r :
  headers opts = Some (HBool false) ->
  let W := widestRow (rowsOf input opts) in
  let rec := projectOf lower input opts r in
  headerNamesOf lower input opts = List.map synth (seq 0 W)
  /\ keyCount rec = W
  /\ (forall i, i < W ->
        props rec !! synth i
        = Some (cellValue (trimOf opts) (inferOf opts) (defvalOf opts)
                  (r !! i))).
Proof.
  intros Hh W rec.
  assert (HH := headerNamesOf_no_headers lower input opts Hh). fold W in HH.
  assert (Hproto : PROTO ∉ List.map synth (seq 0 W)).
  { intros Hin. apply list_elem_of_In, in_map_iff in Hin as (i & Hi & _).
    by apply synth_not_proto in Hi. }
  split; [done|]. split.
  - unfold keyCount, rec. rewrite projectOf_fold, HH.
    rewrite fold_assign_size.
    + cbn. by rewrite map_size_empty, length_seq, length_map, length_seq.
    + rewrite keyAt_seq. apply NoDup_synth.
    + by rewrite keyAt_seq.
    + done.
  - intros i Hi. unfold rec. rewrite projectOf_fold, HH.
    rewrite length_map, length_seq.
    assert (Hk : keyAt (List.map synth (seq 0 W)) i = synth i).
    { unfold keyAt.
      change (List.map synth (seq 0 W)) with (synth <$> seq 0 W).
      by rewrite list_lookup_fmap, lookup_seq_lt. }
    rewrite <- Hk at 1. apply fold_assign_lookup.
    + assert (Hks := keyAt_seq (List.map synth (seq 0 W))).
      rewrite length_map, length_seq in Hks. rewrite Hks.
      apply NoDup_synth.
    + apply list_elem_of_In, in_seq. lia.
    + rewrite Hk. apply synth_not_proto.
Qed.

Lemma no_header_records_witness :
  let input := js "a,b" ++ LF :: js "1,2,3" in
  let opts := Build_CsvOptions None (Some (HBool false)) None None None
                VUndefined None None in
  keyCount (projectOf asciiLower input opts [js "a"; js "b"]) = 3.
Proof.
  intros input opts.
  apply (proj1 (proj2 (no_header_records asciiLower input opts
                         [js "a"; js "b"] eq_refl))).
Defined.

(** ** Type inference *)

Lemma dropWhile_idem {A} (p : A -> bool) l :
  dropWhile p (dropWhile p l) = dropWhile p l.
Proof.
  induction l as [|x l IH]; [done|]. cbn [dropWhile].
  destruct (p x) eqn:E; [done|]. cbn [dropWhile]. by rewrite E.
Qed.

Lemma dropWhile_id {A} (p : A -> bool) l :
  (forall c r, l = c :: r -> p c = false) -> dropWhile p l = l.
Proof.
  destruct l as [|x l]; [done|]. intros H. cbn [dropWhile].
  by rewrite (H x l eq_refl).
Qed.

(** Trimming a trimmed string changes nothing. *)
Lemma trim_idem s : trim (trim s) = trim s.
Proof.
  assert (Hstart : trimStart (trim s) = trim s).
  { apply dropWhile_id. intros c r. apply trim_head. }
  unfold trim at 1. rewrite Hstart.
  unfold trim, trimEnd. by rewrite rev_involutive, dropWhile_idem.
Qed.

(** X11.  Type inference is idempotent: inferring again from an inferred
    value gives the same value.  And a string that stays a string comes out
    as the trimmed cell. *)
Theorem inference_idempotent v :
  convertToJsTypes (convertToJsTypes v) = convertToJsTypes v
  /\ (forall x s, v = VStr x -> convertToJsTypes v = VStr s -> s = trim x).
Proof.
  split.
  - destruct v as [| | | |x|]; try done.
    unfold convertToJsTypes.
    destruct (is_empty (trim x)) eqn:E1; [reflexivity|].
    destruct (matchesWord "true" (trim x)) eqn:E2; [done|].
    destruct (matchesWord "false" (trim x)) eqn:E3; [done|].
    destruct (matchesWord "null" (trim x)) eqn:E4; [done|].
    destruct (isNumeric (trim x)) eqn:E5; [done|].
    by rewrite trim_idem, E1, E2, E3, E4, E5.
  - intros x s ->. unfold convertToJsTypes.
    destruct (is_empty (trim x)) eqn:E1.
    { apply is_empty_true in E1. rewrite E1. by intros [= <-]. }
    repeat match goal with
    | |- context [if ?b then _ else _] => destruct b
    end; try done.
    by intros [= <-].
Qed.

(** X12.  With [inferTypes] on, a cell that is empty or all white space
    becomes the empty string, and no other cell does: a blank cell is
    never turned into null, a number or the default value. *)
Theorem inference_of_blank x :
  convertToJsTypes (VStr x) = VStr [] <-> forallb isWhite x = true.
Proof.
  rewrite <- trim_empty. unfold convertToJsTypes.
  destruct (is_empty (trim x)) eqn:E1; [done|].
  split; [|done].
  repeat match goal with
  | |- context [if ?b then _ else _] => destruct b
  end; try done.
  intros [= H]. by rewrite H in E1.
Qed.

Lemma convert_trim x :
  convertToJsTypes (VStr (trim x)) = convertToJsTypes (VStr x).
Proof. unfold convertToJsTypes. by rewrite trim_idem. Qed.

(** X13.  With [inferTypes] on, neither [trimCells] nor [defval] has any
    effect: cells are trimmed by the inference itself and the default
    value is never used.  Two option sets that differ only in these two
    properties give the same records. *)
Theorem inference_ignores_trim_and_defval lower input opts opts' :
  inferTypes opts = Some true -> inferTypes opts' = Some true ->
  delimiter opts' = delimiter opts -> headers opts' = headers opts ->
  preserveHeaderCase opts' = preserveHeaderCase opts ->
  comment opts' = comment opts ->
  skipEmptyLines opts' = skipEmptyLines opts ->
  parseCSV lower input opts' = parseCSV lower input opts.
Proof.
  intros Hi Hi' Hd Hh Hp Hc Hs.
  assert (Hcell : forall t1 t2 dv1 dv2 cell,
            cellValue t1 true dv1 cell = cellValue t2 true dv2 cell).
  { intros t1 t2 dv1 dv2 [s|]; [|done]. unfold cellValue.
    destruct t1, t2; by rewrite ?convert_trim. }
  assert (Hrows : rowsOf input opts' = rowsOf input opts).
  { unfold rowsOf, delimiterOf, skipOf. by rewrite Hd, Hc, Hs. }
  unfold parseCSV, headersOf, preserveOf, inferOf.
  rewrite Hrows, Hh, Hp, Hi, Hi'. cbn [from_option id].
  destruct (rowsOf input opts) as [|r0 rest]; [done|].
  destruct (resolveHeaders _ _ _ _) as [names start].
  apply map_ext. intros r. unfold projectRow.
  generalize emptyRow. generalize (seq 0 (length names `max` widestRow (r0 :: rest))).
  induction l as [|c l IH]; intros o; [done|].
  cbn [fold_left].
  by rewrite (Hcell (trimOf opts') (trimOf opts) (defvalOf opts')
                (defvalOf opts)), IH.
Qed.

Lemma inference_ignores_trim_and_defval_witness :
  let input := js "a,b" ++ LF :: js " 1 " in
  parseCSV asciiLower input
    (Build_CsvOptions None None None None None (VStr (js "-"))
       (Some true) (Some false))
  = parseCSV asciiLower input
      (Build_CsvOptions None None None None None VUndefined
         (Some true) None).
Proof.
  intros input.
  by apply (inference_ignores_trim_and_defval asciiLower input).
Defined.

(** *** The numeric pattern *)

Lemma dropWhile_split {A} (p : A -> bool) l :
  exists l1, l = l1 ++ dropWhile p l /\ Forall (fun x => p x = true) l1.
Proof.
  induction l as [|x l (l1 & IH & Hall)]; cbn [dropWhile].
  - by exists [].
  - destruct (p x) eqn:E; [|by exists []].
    exists (x :: l1). split; [cbn; by f_equal|by constructor].
Qed.

Lemma dropWhile_app_all {A} (p : A -> bool) l1 r :
  Forall (fun x => p x = true) l1 ->
  (forall c r', r = c :: r' -> p c = false) ->
  dropWhile p (l1 ++ r) = r.
Proof.
  intros Hall Hr. induction Hall as [|x l1 Hx _ IH]; cbn [app dropWhile].
  - by apply dropWhile_id.
  - by rewrite Hx.
Qed.

Lemma digits1_Some s r :
  digits1 s = Some r ->
  exists ds, s = ds ++ r /\ allDigits ds.
Proof.
  destruct s as [|c s']; [done|]. cbn [digits1].
  destruct (isDigit c) eqn:E; [|done]. intros [= <-].
  destruct (dropWhile_split isDigit s') as (l1 & Hl1 & Hall).
  exists (c :: l1). split; [cbn; by f_equal|].
  split; [done|by constructor].
Qed.

Lemma digits1_app ds r :
  allDigits ds -> (forall c r', r = c :: r' -> isDigit c = false) ->
  digits1 (ds ++ r) = Some r.
Proof.
  intros [Hne Hall] Hr. destruct ds as [|c ds]; [done|].
  inversion Hall as [|? ? Hc Hds]; subst.
  cbn [app digits1]. rewrite Hc. f_equal. by apply dropWhile_app_all.
Qed.

Lemma digits1_all ds : allDigits ds -> digits1 ds = Some [].
Proof.
  intros H. rewrite <- (app_nil_r ds) at 1. by apply digits1_app.
Qed.

(** X14.  The numeric test of the inference accepts exactly the strings
    made of an optional minus sign, one or more digits, an optional
    fraction (a dot and one or more digits) and an optional exponent ([e]
    or [E], an optional sign, one or more digits). *)
Theorem numeric_pattern s : isNumeric s = true <-> numberShape s.
Proof.
  split.
  - unfold isNumeric. intros H.
    set (s0 := match s with
               | c :: s' => if chr_eqb c 45%N then s' else s
               | [] => s
               end) in H.
    assert (Hsign : exists sign, s = sign ++ s0
                                 /\ (sign = [] \/ sign = [45%N])).
    { subst s0. destruct s as [|c s']; [by exists []|].
      destruct (chr_eqb c 45%N) eqn:E.
      - apply chr_eqb_eq in E as ->. exists [45%N]. split; [done|by right].
      - exists []. split; [done|by left]. }
    destruct Hsign as (sign & Hs & Hsg). clearbody s0.
    destruct (digits1 s0) as [r1|] eqn:E1; [|done].
    apply digits1_Some in E1 as (int & Hs0 & Hint).
    assert (Hfrac : exists frac r2,
              r1 = frac ++ r2
              /\ (frac = [] \/ exists fd, frac = 46%N :: fd /\ allDigits fd)
              /\ match r2 with
                 | [] => true
                 | e :: r =>
                   if chr_eqb e 101%N || chr_eqb e 69%N then
                     match digits1 match r with
                                   | c :: r' =>
                                     if chr_eqb c 43%N || chr_eqb c 45%N
                                     then r' else r
                                   | [] => r
                                   end with
                     | Some [] => true
                     | _ => false
                     end
                   else false
                 end = true).
    { destruct r1 as [|c r]; [by exists [], []; split; [|split; [left|]]|].
      destruct (chr_eqb c 46%N) eqn:E.
      - apply chr_eqb_eq in E as ->.
        destruct (digits1 r) as [r2|] eqn:E2; [|done].
        apply digits1_Some in E2 as (fd & -> & Hfd).
        exists (46%N :: fd), r2. split; [done|]. split; [|done].
        right. by exists fd.
      - exists [], (c :: r). split; [done|]. split; [by left|done]. }
    destruct Hfrac as (frac & r2 & Hr1 & Hfr & Hex).
    assert (Hexp : r2 = []
              \/ exists e sg ed,
                   r2 = e :: sg ++ ed
                   /\ (e = 101%N \/ e = 69%N)
                   /\ (sg = [] \/ sg = [43%N] \/ sg = [45%N])
                   /\ allDigits ed).
    { destruct r2 as [|e r]; [by left|]. right.
      destruct (chr_eqb e 101%N || chr_eqb e 69%N) eqn:Ee; [|done].
      assert (He : e = 101%N \/ e = 69%N).
      { apply orb_true_iff in Ee as [E|E]; apply chr_eqb_eq in E; auto. }
      set (r3 := match r with
                 | c :: r' =>
                   if chr_eqb c 43%N || chr_eqb c 45%N then r' else r
                 | [] => r
                 end) in Hex.
      assert (Hsg3 : exists sg, r = sg ++ r3
                      /\ (sg = [] \/ sg = [43%N] \/ sg = [45%N])).
      { subst r3. destruct r as [|c r']; [exists []; auto|].
        destruct (chr_eqb c 43%N) eqn:Ep.
        - apply chr_eqb_eq in Ep as ->. exists [43%N]. auto.
        - destruct (chr_eqb c 45%N) eqn:Em.
          + apply chr_eqb_eq in Em as ->. exists [45%N]. auto.
          + exists []. auto. }
      destruct Hsg3 as (sg & Hr & Hsg3). clearbody r3. subst r.
      destruct (digits1 r3) as [[|? ?]|] eqn:E3; try done.
      apply digits1_Some in E3 as (ed & -> & Hed).
      exists e, sg, ed. by rewrite app_nil_r. }
    exists sign, int, frac, r2. by rewrite Hs, Hs0, Hr1.
  - intros (sign & int & frac & ex & -> & Hsg & Hint & Hfr & Hex).
    assert (Hd : forall c, isDigit c = true ->
              chr_eqb c 45%N = false /\ chr_eqb c 43%N = false
              /\ chr_eqb c 46%N = false).
    { intros c Hc. unfold isDigit in Hc.
      apply andb_true_iff in Hc as [H1 H2].
      apply N.leb_le in H1, H2.
      repeat split; apply chr_eqb_neq; lia. }
    assert (Hexhd : forall c r', ex = c :: r' -> isDigit c = false).
    { intros c r' ->. destruct Hex as [|(e & sg & ed & [= -> _] & He & _)];
        [done|]. by destruct He as [-> | ->]. }
    assert (Hfrexhd : forall c r', frac ++ ex = c :: r' -> isDigit c = false).
    { intros c r' Heq. destruct Hfr as [->|(fd & -> & _)]; [by eapply Hexhd|].
      by injection Heq as <- _. }
    unfold isNumeric.
    assert (Hs0 : match sign ++ int ++ frac ++ ex with
                  | c :: s' =>
                    if chr_eqb c 45%N then s' else sign ++ int ++ frac ++ ex
                  | [] => sign ++ int ++ frac ++ ex
                  end = int ++ frac ++ ex).
    { destruct Hsg as [-> | ->]; [|done]. cbn [app].
      destruct Hint as [Hne Hall]. destruct int as [|c int]; [done|].
      inversion Hall as [|? ? Hc _]; subst. cbn [app].
      by rewrite (proj1 (Hd c Hc)). }
    rewrite Hs0, (digits1_app int (frac ++ ex)) by done.
    assert (Hr2 : match frac ++ ex with
                  | c :: r =>
                    if chr_eqb c 46%N then digits1 r else Some (frac ++ ex)
                  | [] => Some (frac ++ ex)
                  end = Some ex).
    { destruct Hfr as [->|(fd & -> & Hfd)].
      - cbn [app]. destruct ex as [|e r]; [done|].
        destruct Hex as [|(e' & sg & ed & [= -> _] & He & _)]; [done|].
        by destruct He as [-> | ->].
      - cbn [app]. chr_consts.
        change (chr_eqb 46%N 46%N) with true. cbn iota.
        by apply digits1_app. }
    rewrite Hr2.
    destruct Hex as [->|(e & sg & ed & -> & He & Hsg' & Hed)]; [done|].
    replace (chr_eqb e 101%N || chr_eqb e 69%N) with true
      by (by destruct He as [-> | ->]).
    assert (Hr3 : match sg ++ ed with
                  | c :: r' =>
                    if chr_eqb c 43%N || chr_eqb c 45%N then r' else sg ++ ed
                  | [] => sg ++ ed
                  end = ed).
    { destruct Hsg' as [->|[->| ->]]; [|done..]. cbn [app].
      destruct Hed as [Hne Hall]. destruct ed as [|c ed]; [done|].
      inversion Hall as [|? ? Hc _]; subst.
      destruct (Hd c Hc) as (-> & -> & _). done. }
    rewrite Hr3. by rewrite digits1_all.
Qed.

(** ** Blank texts *)

Lemma isWhite_not_quote ch : isWhite ch = true -> chr_eqb ch QUOTE = false.
Proof.
  intros H. apply chr_eqb_neq. intros ->. by vm_compute in H.
Qed.

Lemma forallb_app_single {A} (p : A -> bool) l x :
  forallb p l = true -> p x = true -> forallb p (l ++ [x]) = true.
Proof. intros Hl Hx. rewrite forallb_app, Hl. cbn. by rewrite Hx. Qed.

Lemma loop_blank d c :
  forall text st,
    forallb isWhite text = true ->
    (forall ch, ch ∈ text -> d <> [ch]) ->
    Tokenizer.row st = [] -> Tokenizer.lines st = [] ->
    Tokenizer.inQuotes st = false ->
    forallb isWhite (Tokenizer.field st) = true ->
    let st' := Tokenizer.loop d c true text st in
    Tokenizer.row st' = [] /\ Tokenizer.lines st' = []
    /\ forallb isWhite (Tokenizer.field st') = true.
Proof.
  intros text.
  induction text as [text IH] using text_len_ind.
  intros st Hw Hd Hr Hl Hq Hf.
  destruct text as [|ch rest]; [done|].
  cbn [forallb] in Hw. apply andb_true_iff in Hw as [Hch Hw].
  assert (Hd' : forall x, x ∈ rest -> d <> [x])
    by (intros x Hx; apply Hd; by right).
  assert (Hrest : forall st0,
            Tokenizer.row st0 = [] -> Tokenizer.lines st0 = [] ->
            Tokenizer.inQuotes st0 = false ->
            forallb isWhite (Tokenizer.field st0) = true ->
            let st' := Tokenizer.loop d c true rest st0 in
            Tokenizer.row st' = [] /\ Tokenizer.lines st' = []
            /\ forallb isWhite (Tokenizer.field st') = true).
  { intros st0 H1 H2 H3 H4. apply IH; [simpl; lia|done..]. }
  assert (Hnl : let st0 := Tokenizer.pushRow true (Tokenizer.pushField st) in
            Tokenizer.row st0 = [] /\ Tokenizer.lines st0 = []
            /\ Tokenizer.inQuotes st0 = false
            /\ forallb isWhite (Tokenizer.field st0) = true).
  { cbn. rewrite Hr, Hl, Hq. cbn. unfold Tokenizer.blankRow. cbn.
    by rewrite trim_empty, Hf. }
  destruct Hnl as (Hn1 & Hn2 & Hn3 & Hn4).
  cbn zeta. cbn [Tokenizer.loop]. rewrite skipLine_afterLF.
  rewrite (isWhite_not_quote ch Hch), Hq. cbn [negb andb].
  replace (str_eqb d [ch]) with false
    by (symmetry; apply str_eqb_neq, Hd; by left).
  destruct (Tokenizer.commentStart c st ch).
  { destruct (chr_eqb ch LF); [by apply Hrest|].
    destruct (afterLF rest) as [r'|] eqn:E; [|done].
    apply IH; try done.
    - apply afterLF_shorter in E. simpl. lia.
    - clear -Hw E. revert r' E.
      induction rest as [|x rest IHr]; intros r' E; [done|].
      cbn in Hw, E. apply andb_true_iff in Hw as [_ Hw].
      destruct (chr_eqb x LF); [by injection E as <-|by apply IHr].
    - intros x Hx. apply Hd'. by eapply afterLF_subseteq. }
  destruct (chr_eqb ch LF || chr_eqb ch CR).
  - destruct rest as [|n rest']; [by apply Hrest|].
    destruct (chr_eqb ch CR && chr_eqb n LF); [|by apply Hrest].
    apply IH; try done; [simpl; lia| |].
    + cbn in Hw. by apply andb_true_iff in Hw as [_ ?].
    + intros x Hx. apply Hd'. by right.
  - apply Hrest; try done. cbn. by apply forallb_app_single.
Qed.

(** X15.  A text of white space only (spaces, tabs, line breaks in any
    mix), none of its characters being the delimiter in use, gives no row
    and no record when [skipEmptyLines] is on, as it is by default. *)
Theorem blank_text_no_records lower input opts :
  skipOf opts = true ->
  forallb isWhite input = true ->
  (forall ch, ch ∈ input -> delimiterOf input opts <> [ch]) ->
  rowsOf input opts = [] /\ parseCSV lower input opts = [].
Proof.
  intros Hs Hw Hd.
  assert (Hrows : rowsOf input opts = []).
  { unfold rowsOf. rewrite Hs. unfold Tokenizer.parseRows.
    assert (Hsub : forall x, x ∈ stripBOM input -> x ∈ input).
    { intros x. destruct input as [|ch t]; [done|]. cbn [stripBOM].
      destruct (chr_eqb ch BOM); [by right|done]. }
    assert (Hw' : forallb isWhite (stripBOM input) = true).
    { destruct input as [|ch t]; [done|]. cbn [stripBOM].
      destruct (chr_eqb ch BOM); [|done].
      cbn in Hw. by apply andb_true_iff in Hw as [_ ?]. }
    destruct (loop_blank (delimiterOf input opts) (comment opts)
                (stripBOM input) Tokenizer.init Hw'
                ltac:(intros x Hx; by apply Hd, Hsub)
                eq_refl eq_refl eq_refl eq_refl) as (Hr & Hl & Hf).
    rewrite finish_cases, Hr, Hl, trim_empty, Hf. cbn.
    by rewrite andb_false_r. }
  split; [done|]. unfold parseCSV. by rewrite Hrows.
Qed.

Lemma blank_text_no_records_witness :
  parseCSV asciiLower (js "  " ++ [CR; LF; LF] ++ js " ") noOptions = [].
Proof.
  apply (blank_text_no_records asciiLower
           (js "  " ++ [CR; LF; LF] ++ js " ") noOptions eq_refl eq_refl).
  intros ch Hch. vm_compute in Hch. vm_compute.
  cand_cases Hch; discriminate.
Defined.

(** ** Carriage returns as line endings *)

Lemma crOnly_cons c s :
  crOnly (c :: s) = (if chr_eqb c LF then CR else c) :: crOnly s.
Proof. done. Qed.

Lemma crOnly_app a b : crOnly (a ++ b) = crOnly a ++ crOnly b.
Proof. apply map_app. Qed.

Lemma crOnly_id s : LF ∉ s -> crOnly s = s.
Proof.
  induction s as [|c s IH]; intros Hs; [done|].
  apply not_elem_of_cons in Hs as [Hc Hs].
  rewrite crOnly_cons, IH by done.
  by replace (chr_eqb c LF) with false
    by (symmetry; apply chr_eqb_neq; congruence).
Qed.

Lemma forallb_white_crOnly s :
  forallb isWhite (crOnly s) = forallb isWhite s.
Proof.
  induction s as [|c s IH]; [done|].
  rewrite crOnly_cons. cbn [forallb]. rewrite IH.
  destruct (chr_eqb c LF) eqn:E; [|done].
  by apply chr_eqb_eq in E as ->.
Qed.

Lemma blankRow_crOnly skip r :
  Tokenizer.blankRow skip (List.map crOnly r) = Tokenizer.blankRow skip r.
Proof.
  unfold Tokenizer.blankRow. destruct r as [|f [|f' r]]; try done.
  cbn [List.map]. by rewrite !trim_empty, forallb_white_crOnly.
Qed.

Lemma pushField_cr st :
  Tokenizer.pushField (crState st) = crState (Tokenizer.pushField st).
Proof.
  unfold Tokenizer.pushField, crState. cbn. f_equal. by rewrite map_app.
Qed.

Lemma pushRow_cr skip st :
  Tokenizer.pushRow skip (crState st) = crState (Tokenizer.pushRow skip st).
Proof.
  unfold Tokenizer.pushRow, crState.
  cbn [Tokenizer.field Tokenizer.row Tokenizer.inQuotes Tokenizer.lines].
  rewrite blankRow_crOnly. f_equal.
  destruct (Tokenizer.blankRow skip (Tokenizer.row st)); [done|].
  by rewrite map_app.
Qed.

Lemma addChar_cr c st :
  Tokenizer.addChar (if chr_eqb c LF then CR else c) (crState st)
  = crState (Tokenizer.addChar c st).
Proof.
  unfold Tokenizer.addChar, crState. cbn. f_equal. by rewrite crOnly_app.
Qed.

Lemma loop_cr d skip :
  d <> [CR] -> d <> [LF] ->
  forall t st, CR ∉ t ->
    Tokenizer.loop d None skip (crOnly t) (crState st)
    = crState (Tokenizer.loop d None skip t st).
Proof.
  intros HdCR HdLF t.
  induction t as [t IH] using text_len_ind. intros st Ht.
  destruct t as [|ch rest]; [done|].
  apply not_elem_of_cons in Ht as [Hch Hrest].
  assert (IHrest : forall st',
    Tokenizer.loop d None skip (crOnly rest) (crState st')
    = crState (Tokenizer.loop d None skip rest st')).
  { intros st'. apply IH; [simpl; lia|done]. }
  assert (EdCR : str_eqb d [CR] = false) by (by apply str_eqb_neq).
  assert (EdLF : str_eqb d [LF] = false) by (by apply str_eqb_neq).
  assert (Hhd : forall n, chr_eqb (if chr_eqb n LF then CR else n) LF = false).
  { intros n. by destruct (chr_eqb n LF) eqn:E. }
  assert (Hq : forall n, chr_eqb (if chr_eqb n LF then CR else n) QUOTE
                         = chr_eqb n QUOTE).
  { intros n. destruct (chr_eqb n LF) eqn:E; [|done].
    by apply chr_eqb_eq in E as ->. }
  rewrite crOnly_cons. destruct (chr_eqb ch LF) eqn:ELF.
  - apply chr_eqb_eq in ELF as ->.
    cbn [Tokenizer.loop]. unfold Tokenizer.commentStart, Tokenizer.isComment.
    rewrite !andb_false_r, EdCR, EdLF, !andb_false_r. chr_consts.
    cbn [orb andb crState Tokenizer.inQuotes].
    destruct (Tokenizer.inQuotes st) eqn:Eq; cbn [negb andb].
    + rewrite <- IHrest. f_equal. apply (addChar_cr LF).
    + rewrite match_list_same, <- IHrest, <- pushRow_cr, <- pushField_cr.
      destruct rest as [|n rest']; [done|].
      by rewrite crOnly_cons, Hhd.
  - assert (ECR : chr_eqb ch CR = false) by (apply chr_eqb_neq; congruence).
    cbn [Tokenizer.loop]. unfold Tokenizer.commentStart, Tokenizer.isComment.
    rewrite !andb_false_r, ELF, ECR. cbn [orb crState Tokenizer.inQuotes].
    rewrite !andb_false_r.
    destruct (chr_eqb ch QUOTE) eqn:EQ.
    { destruct rest as [|n rest']; [done|].
      apply not_elem_of_cons in Hrest as Hn. destruct Hn as [Hn Hrest'].
      rewrite crOnly_cons, Hq.
      destruct (Tokenizer.inQuotes st && chr_eqb n QUOTE).
      - apply chr_eqb_eq in EQ as ->.
        assert (Ha : Tokenizer.addChar QUOTE (crState st)
                     = crState (Tokenizer.addChar QUOTE st))
          by apply (addChar_cr QUOTE).
        rewrite Ha. apply IH; [simpl; lia|done].
      - rewrite <- crOnly_cons.
        change (Tokenizer.toggle (crState st))
          with (crState (Tokenizer.toggle st)).
        apply IHrest. }
    destruct (negb (Tokenizer.inQuotes st) && str_eqb d [ch]).
    { rewrite pushField_cr. apply IHrest. }
    rewrite <- IHrest. f_equal.
    assert (H := addChar_cr ch st). by rewrite ELF in H.
Qed.

Lemma finish_cr skip st :
  Tokenizer.finish skip (crState st)
  = List.map (List.map crOnly) (Tokenizer.finish skip st).
Proof.
  rewrite !finish_cases. unfold lastRow, crState.
  cbn [Tokenizer.field Tokenizer.row Tokenizer.lines].
  rewrite is_empty_map, !trim_empty, forallb_white_crOnly.
  replace (is_empty (crOnly (Tokenizer.field st)))
    with (is_empty (Tokenizer.field st)) by (by destruct (Tokenizer.field st)).
  destruct (_ && _); [|done].
  rewrite (map_app (List.map crOnly)). cbn [List.map]. by rewrite map_app.
Qed.

(** X16.  Carriage returns alone work as line endings for the tokenizer:
    without a comment prefix, a text whose line feeds are all written as
    carriage returns gives the rows of the original text, a line break
    inside a quoted field being kept as it is written.  When no field
    holds a line break the rows are the same. *)
Theorem cr_line_endings d skip t :
  CR ∉ t -> d <> [CR] -> d <> [LF] ->
  Tokenizer.parseRows d None skip (crOnly t)
  = List.map (List.map crOnly) (Tokenizer.parseRows d None skip t)
  /\ ((forall r f, r ∈ Tokenizer.parseRows d None skip t -> f ∈ r ->
         LF ∉ f) ->
      Tokenizer.parseRows d None skip (crOnly t)
      = Tokenizer.parseRows d None skip t).
Proof.
  intros Ht HdCR HdLF.
  assert (Hrows : Tokenizer.parseRows d None skip (crOnly t)
            = List.map (List.map crOnly) (Tokenizer.parseRows d None skip t)).
  { unfold Tokenizer.parseRows.
    change Tokenizer.init with (crState Tokenizer.init) at 1.
    rewrite loop_cr by done. apply finish_cr. }
  split; [done|]. intros Hall. rewrite Hrows.
  rewrite <- (map_id (Tokenizer.parseRows d None skip t)) at 2.
  apply map_ext_in. intros r Hr. apply list_elem_of_In in Hr.
  rewrite <- (map_id r) at 2.
  apply map_ext_in. intros f Hf. apply list_elem_of_In in Hf.
  apply crOnly_id. by eapply Hall.
Qed.

Lemma cr_line_endings_witness :
  Tokenizer.parseRows [COMMA] None true (js "a,b" ++ CR :: js "1,2")
  = Tokenizer.parseRows [COMMA] None true (js "a,b" ++ LF :: js "1,2").
Proof.
  apply (proj2 (cr_line_endings [COMMA] true (js "a,b" ++ LF :: js "1,2")
                  ltac:(by_decide) ltac:(discriminate) ltac:(discriminate))).
  intros r f Hr Hf.
  assert (Hall : Forall (Forall (fun f => LF ∉ f))
            (Tokenizer.parseRows [COMMA] None true
               (js "a,b" ++ LF :: js "1,2"))) by by_decide.
  rewrite Forall_forall in Hall. specialize (Hall r Hr).
  rewrite Forall_forall in Hall. by apply Hall.
Defined.

(** ** A column named [__proto__] *)

(** X17.  A column whose header name is [__proto__], when no other column
    has that name, never becomes a key of a record: the assignment runs
    the prototype setter of the object instead of creating a property, so
    the cell of that column is not in the record. *)
Theorem proto_column_is_lost lower input opts r c :
  headerNamesOf lower input opts !! c = Some PROTO ->
  (forall c', c' <> c -> headerNamesOf lower input opts !! c' <> Some PROTO) ->
  props (projectOf lower input opts r) !! PROTO = None.
Proof.
  intros Hc Huniq.
  set (H := headerNamesOf lower input opts) in *.
  assert (Hlt : c < length H) by (apply lookup_lt_is_Some_1; eauto).
  assert (Hnot : forall n m, (forall i, n <= i < n + m -> i <> c) ->
            PROTO ∉ keyAt H <$> seq n m).
  { intros n m Hnm Hin.
    apply list_elem_of_fmap in Hin as (c' & Hk & Hin).
    apply list_elem_of_In, in_seq in Hin.
    destruct (decide (c' < length H)) as [Hl|Hl].
    - apply (Huniq c'); [by apply Hnm|]. by apply keyAt_lookup.
    - unfold keyAt in Hk. rewrite (proj2 (lookup_ge_None H c')) in Hk by lia.
      by vm_compute in Hk. }
  rewrite projectOf_fold. fold H.
  replace (length H) with (c + S (length H - S c)) by lia.
  rewrite seq_app, fold_left_app. cbn [seq fold_left Nat.add].
  rewrite fold_assign_other by (apply Hnot; lia).
  set (o1 := fold_left _ (seq 0 c) emptyRow).
  assert (Hp1 : prototype o1 = ProtoObject).
  { unfold o1. rewrite fold_assign_proto; [done|]. apply Hnot. lia. }
  assert (Ho1 : props o1 !! PROTO = None).
  { unfold o1. rewrite fold_assign_other; [apply lookup_empty|].
    apply Hnot. lia. }
  replace (keyAt H c) with PROTO by (unfold keyAt; by rewrite Hc).
  unfold assign. rewrite Hp1.
  replace (str_eqb PROTO PROTO) with true by (symmetry; by apply str_eqb_eq).
  cbn [andb negb bool_decide].
  by destruct (cellValue _ _ _ _).
Qed.

Lemma proto_column_is_lost_witness :
  let input := js "a,__proto__" ++ LF :: js "1,2" in
  props (projectOf asciiLower input noOptions [js "1"; js "2"]) !! PROTO
  = None.
Proof.
  intros input.
  apply (proto_column_is_lost asciiLower input noOptions
           [js "1"; js "2"] 1); [reflexivity|].
  intros c' Hc'. destruct c' as [|[|c']]; [by vm_compute|done|by vm_compute].
Defined.

(** ** White space around header names *)

Lemma dropWhile_white_prefix {A} (p : A -> bool) w x :
  forallb p w = true -> dropWhile p (w ++ x) = dropWhile p x.
Proof.
  induction w as [|c w IH]; intros Hw; [done|].
  cbn in Hw. apply andb_true_iff in Hw as [Hc Hw].
  cbn [app dropWhile]. rewrite Hc. by apply IH.
Qed.

Lemma dropWhile_app {A} (p : A -> bool) a b :
  dropWhile p (a ++ b)
  = if is_empty (dropWhile p a) then dropWhile p b else dropWhile p a ++ b.
Proof.
  induction a as [|c a IH]; [done|]. cbn [app dropWhile].
  destruct (p c); [done|]. done.
Qed.

Lemma trimEnd_white_suffix x w :
  forallb isWhite w = true -> trimEnd (x ++ w) = trimEnd x.
Proof.
  intros Hw. unfold trimEnd. rewrite rev_app_distr.
  by rewrite dropWhile_white_prefix by (by rewrite forallb_rev).
Qed.

(** Trimming does not see white space added at either end. *)
Lemma trim_surrounded w1 h w2 :
  forallb isWhite w1 = true -> forallb isWhite w2 = true ->
  trim (w1 ++ h ++ w2) = trim h.
Proof.
  intros H1 H2. unfold trim, trimStart.
  rewrite dropWhile_white_prefix by done. rewrite dropWhile_app.
  destruct (is_empty (dropWhile isWhite h)) eqn:E.
  - apply is_empty_true in E. rewrite E.
    by rewrite (proj2 (dropWhile_nil isWhite w2) H2).
  - by apply trimEnd_white_suffix.
Qed.

(** X18.  White space, a byte order mark included, around a header cell
    never reaches the header name: two cells that differ only in leading
    and trailing white space give the same name, whatever
    [preserveHeaderCase] is, and a name kept in its case neither starts
    nor ends with a white space character. *)
Theorem header_names_ignore_white_space lower preserve w1 h w2 :
  forallb isWhite w1 = true -> forallb isWhite w2 = true ->
  normalizeHeader lower preserve (w1 ++ h ++ w2)
  = normalizeHeader lower preserve h
  /\ (forall c r, normalizeHeader lower true h = c :: r ->
        isWhite c = false)
  /\ (forall c r, normalizeHeader lower true h = r ++ [c] ->
        isWhite c = false).
Proof.
  intros H1 H2. rewrite !normalizeHeader_trim. split; [|split].
  - by rewrite trim_surrounded.
  - intros c r. apply trim_head.
  - intros c r Heq. unfold trim, trimEnd in Heq.
    apply (f_equal (@rev _)) in Heq.
    rewrite rev_involutive, rev_app_distr in Heq. cbn in Heq.
    by apply dropWhile_head in Heq.
Qed.

Lemma header_names_ignore_white_space_witness :
  normalizeHeader asciiLower false ((BOM :: js " ") ++ js "Name" ++ js "  ")
  = normalizeHeader asciiLower false (js "Name").
Proof.
  apply (proj1 (header_names_ignore_white_space asciiLower false
                  (BOM :: js " ") (js "Name") (js "  ") eq_refl eq_refl)).
Defined.

(** ** Instances of the statements above *)

Lemma rows_well_formed_witness :
  Forall (fun r => r <> []
                   /\ (true = true -> forall f, r = [f] -> trim f <> []))
    (Tokenizer.parseRows [COMMA] None true
       (js "a,b" ++ LF :: LF :: js " " ++ LF :: js "c")).
Proof.
  apply (rows_well_formed [COMMA] None true
           (js "a,b" ++ LF :: LF :: js " " ++ LF :: js "c")).
Defined.

Lemma inference_idempotent_witness :
  js "abc" = trim (js " abc ").
Proof.
  apply (proj2 (inference_idempotent (VStr (js " abc ")))
           (js " abc ") (js "abc") eq_refl).
  by vm_compute.
Defined.
